(** * GravityScene: three.js / cannon-es orchestration of [src/app.js]

    A shallow embedding of the [GravityScene] class: its constructor, the
    gravity-input change handler, [onWindowResize], [addBall] and [animate],
    and of the top level of the module: the three scenes and [animateAll].

    JavaScript numbers are IEEE-754 binary64 values, which is what Rocq's
    primitive [float] is, so arithmetic and comparisons are those of the
    source ([NaN] compares false, [-0] is the negation of [0], and so on).

    JavaScript objects have identity and are shared: a ball's body is the
    very object the physics world integrates, a ball's mesh is the very object
    the scene draws.  Objects are therefore kept in two stores indexed by
    handles (natural numbers): [objects] for three.js scene nodes and
    [bodyStore] for cannon-es bodies; the scene, the world and the balls refer
    to them by handle. *)

From Stdlib Require Import Floats.
From stdpp Require Import gmap strings list.

Set Warnings "-inexact-float".

(** ** Completions: a statement either finishes or throws *)

Inductive Error := TypeError.

Inductive completion (A : Type) :=
  | Normal (a : A)
  | Throw (e : Error).
Arguments Normal {A} a.
Arguments Throw {A} e.

#[global] Instance completion_ret : MRet completion := λ A a, Normal a.
#[global] Instance completion_bind : MBind completion := λ A B f m,
  match m with Normal a => f a | Throw e => Throw e end.

(** ** Vectors and quaternions (shared by THREE.Vector3 / CANNON.Vec3 and by
    THREE.Quaternion / CANNON.Quaternion, which carry the same fields) *)

Record Vec3 := mkVec3 { vx : float; vy : float; vz : float }.
Record Quaternion := mkQuat { qx : float; qy : float; qz : float; qw : float }.

Definition zero3 : Vec3 := mkVec3 0 0 0.
Definition identityQ : Quaternion := mkQuat 0 0 0 1.

(** [Vec3.set(x, y, z)] *)
Definition Vec3_set (x y z : float) (_ : Vec3) : Vec3 := mkVec3 x y z.

(** [Vec3.length()]: [Math.sqrt(x * x + y * y + z * z)] *)
Definition Vec3_length (v : Vec3) : float :=
  PrimFloat.sqrt (vx v * vx v + vy v * vy v + vz v * vz v)%float.

(** [position.y = v] *)
Definition set_y (v : float) (p : Vec3) : Vec3 := mkVec3 (vx p) v (vz p).

Definition Math_PI : float := 3.141592653589793%float.

(** ** three.js scene nodes *)

Inductive Geometry :=
  | PlaneGeometry (width height : float)
  | SphereGeometry (radius : float) (widthSegments heightSegments : Z).

Inductive Object3DKind :=
  | DirectionalLight (color : Z) (intensity : float)
  | Mesh (geometry : Geometry) (color : Z).

Record Object3D := mkObject3D {
  kind : Object3DKind;
  position : Vec3;
  quaternion : Quaternion;
  castShadow : bool;
  receiveShadow : bool
}.

(** [new THREE.Mesh(geo, mat)] and [new THREE.DirectionalLight(c, i)] *)
Definition new_Object3D (k : Object3DKind) : Object3D :=
  mkObject3D k zero3 identityQ false false.

Definition obj_set_position (p : Vec3) (o : Object3D) : Object3D :=
  mkObject3D (kind o) p (quaternion o) (castShadow o) (receiveShadow o).
Definition obj_set_quaternion (q : Quaternion) (o : Object3D) : Object3D :=
  mkObject3D (kind o) (position o) q (castShadow o) (receiveShadow o).
Definition obj_set_castShadow (b : bool) (o : Object3D) : Object3D :=
  mkObject3D (kind o) (position o) (quaternion o) b (receiveShadow o).
Definition obj_set_receiveShadow (b : bool) (o : Object3D) : Object3D :=
  mkObject3D (kind o) (position o) (quaternion o) (castShadow o) b.

(** ** cannon-es bodies and world *)

Inductive Shape := Plane | Sphere (radius : float).

Record Material := mkMaterial { material_name : string }.

Record ContactMaterial := mkContactMaterial {
  cm_first : Material;
  cm_second : Material;
  friction : float;
  restitution : float
}.

Record Body := mkBody {
  mass : float;
  shape : Shape;
  material : Material;
  body_position : Vec3;
  body_quaternion : Quaternion;
  velocity : Vec3;
  angularVelocity : Vec3;
  linearDamping : float
}.

(** [new CANNON.Body({mass, shape, material})]: at the origin, at rest, with
    the library's default linear damping 0.01. *)
Definition new_Body (m : float) (sh : Shape) (mat : Material) : Body :=
  mkBody m sh mat zero3 identityQ zero3 zero3 0.01.

Definition body_set_position (p : Vec3) (b : Body) : Body :=
  mkBody (mass b) (shape b) (material b) p (body_quaternion b)
         (velocity b) (angularVelocity b) (linearDamping b).
Definition body_set_quaternion (q : Quaternion) (b : Body) : Body :=
  mkBody (mass b) (shape b) (material b) (body_position b) q
         (velocity b) (angularVelocity b) (linearDamping b).
Definition body_set_linearDamping (d : float) (b : Body) : Body :=
  mkBody (mass b) (shape b) (material b) (body_position b) (body_quaternion b)
         (velocity b) (angularVelocity b) d.

Inductive Broadphase := DefaultBroadphase | NaiveBroadphase.

(** The world: its public parameters, the bodies it simulates (by handle),
    and the integrator's private state (time accumulator, contacts, ...) of
    an abstract type [S]. *)
Record World (S : Type) := mkWorld {
  gravity : Vec3;
  broadphase : Broadphase;
  solver_iterations : Z;
  contactmaterials : list ContactMaterial;
  bodies : list nat;
  internal : S
}.
Arguments mkWorld {S}.
Arguments gravity {S}.
Arguments broadphase {S}.
Arguments solver_iterations {S}.
Arguments contactmaterials {S}.
Arguments bodies {S}.
Arguments internal {S}.

#[global] Instance Object3D_inhabited : Inhabited Object3D :=
  populate (new_Object3D (Mesh (PlaneGeometry 0 0) 0)).
#[global] Instance Body_inhabited : Inhabited Body :=
  populate (new_Body 0 Plane (mkMaterial "default")).

(** ** What the host and the two libraries supply

    None of this is code of the repository: the ECMAScript built-ins
    [Math.sin], [Math.cos] and [parseFloat], three.js's projection matrix, and
    cannon-es's integrator [World.step].  The step is given bodywise: from the
    world and a snapshot of its bodies (in [bodies] order) it yields the
    integrator's next private state and, for each position [k] of [bodies],
    the next state of that body.  It cannot add or remove bodies and it does
    not write the gravity vector, as in the library. *)

Class Platform := {
  Math_sin : float → float;
  Math_cos : float → float;
  parseFloat : string → float;
  Matrix4 : Type;
  makePerspective : ∀ (fov aspect near far : float), Matrix4;
  Sim : Type;
  Sim_new : Sim;
  step_internal : World Sim → float → float → list Body → Sim;
  step_body : World Sim → float → float → list Body → nat → Body → Body
}.

Section GravityScene.
Context {platform : Platform}.

(** [Quaternion.setFromEuler(x, y, z)] in the default order XYZ (the formula
    is the same in both libraries). *)
Definition setFromEuler (x y z : float) : Quaternion :=
  let c1 := Math_cos (x / 2) in
  let c2 := Math_cos (y / 2) in
  let c3 := Math_cos (z / 2) in
  let s1 := Math_sin (x / 2) in
  let s2 := Math_sin (y / 2) in
  let s3 := Math_sin (z / 2) in
  mkQuat (s1 * c2 * c3 + c1 * s2 * s3)
         (c1 * s2 * c3 - s1 * c2 * s3)
         (c1 * c2 * s3 + s1 * s2 * c3)
         (c1 * c2 * c3 - s1 * s2 * s3).

(** ** Camera, renderer, container *)

Record Camera := mkCamera {
  fov : float;
  aspect : float;
  near : float;
  far : float;
  camera_position : Vec3;
  projectionMatrix : Matrix4
}.

(** [camera.updateProjectionMatrix()] *)
Definition updateProjectionMatrix (c : Camera) : Camera :=
  mkCamera (fov c) (aspect c) (near c) (far c) (camera_position c)
           (makePerspective (fov c) (aspect c) (near c) (far c)).

Definition camera_set_aspect (a : float) (c : Camera) : Camera :=
  mkCamera (fov c) a (near c) (far c) (camera_position c) (projectionMatrix c).
Definition camera_set_position (p : Vec3) (c : Camera) : Camera :=
  mkCamera (fov c) (aspect c) (near c) (far c) p (projectionMatrix c).

(** [new THREE.PerspectiveCamera(fov, aspect, near, far)] *)
Definition PerspectiveCamera (fov aspect near far : float) : Camera :=
  mkCamera fov aspect near far zero3 (makePerspective fov aspect near far).

(** One drawn frame: the scene's children with their state at the time of
    the draw, and the camera they were seen from. *)
Record Frame := mkFrame {
  drawn : list (nat * Object3D);
  viewpoint : Camera
}.

(** The renderer: its drawing size, and the frames it has drawn so far
    (oldest first). *)
Record Renderer := mkRenderer {
  antialias : bool;
  width : float;
  height : float;
  frames : list Frame
}.

(** [renderer.setSize(w, h)] *)
Definition setSize (w h : float) (r : Renderer) : Renderer :=
  mkRenderer (antialias r) w h (frames r).

(** The container element: its client size, and whether it holds an element
    of class [gravityInput]. *)
Record Container := mkContainer {
  clientWidth : float;
  clientHeight : float;
  has_gravityInput : bool
}.

(** ** Balls and the scene controller *)

Record Ball := mkBall { mesh : nat; body : nat; done : bool }.

Definition ball_set_done (d : bool) (b : Ball) : Ball :=
  mkBall (mesh b) (body b) d.

(** The fields of [this], followed by the two object stores and the next
    free handle of each.  [scene] is the list of children of [this.scene]. *)
Record GravityScene := mkGravityScene {
  container : Container;
  gravityValue : float;
  scene : list nat;
  camera : Camera;
  renderer : Renderer;
  groundMesh : nat;
  world : World Sim;
  groundMaterial : Material;
  ballMaterial : Material;
  groundBody : nat;
  ballRadius : float;
  balls : list Ball;
  objects : gmap nat Object3D;
  bodyStore : gmap nat Body;
  object3DId : nat;
  bodyId : nat
}.

Definition set_container (v : Container) (s : GravityScene) : GravityScene :=
  mkGravityScene
    v (gravityValue s) (scene s) (camera s) (renderer s) (groundMesh s)
    (world s) (groundMaterial s) (ballMaterial s) (groundBody s)
    (ballRadius s) (balls s) (objects s) (bodyStore s) (object3DId s)
    (bodyId s).
Definition set_gravityValue (v : float) (s : GravityScene) : GravityScene :=
  mkGravityScene
    (container s) v (scene s) (camera s) (renderer s) (groundMesh s) (world s)
    (groundMaterial s) (ballMaterial s) (groundBody s) (ballRadius s)
    (balls s) (objects s) (bodyStore s) (object3DId s) (bodyId s).
Definition set_scene (v : list nat) (s : GravityScene) : GravityScene :=
  mkGravityScene
    (container s) (gravityValue s) v (camera s) (renderer s) (groundMesh s)
    (world s) (groundMaterial s) (ballMaterial s) (groundBody s)
    (ballRadius s) (balls s) (objects s) (bodyStore s) (object3DId s)
    (bodyId s).
Definition set_camera (v : Camera) (s : GravityScene) : GravityScene :=
  mkGravityScene
    (container s) (gravityValue s) (scene s) v (renderer s) (groundMesh s)
    (world s) (groundMaterial s) (ballMaterial s) (groundBody s)
    (ballRadius s) (balls s) (objects s) (bodyStore s) (object3DId s)
    (bodyId s).
Definition set_renderer (v : Renderer) (s : GravityScene) : GravityScene :=
  mkGravityScene
    (container s) (gravityValue s) (scene s) (camera s) v (groundMesh s)
    (world s) (groundMaterial s) (ballMaterial s) (groundBody s)
    (ballRadius s) (balls s) (objects s) (bodyStore s) (object3DId s)
    (bodyId s).
Definition set_world (v : World Sim) (s : GravityScene) : GravityScene :=
  mkGravityScene
    (container s) (gravityValue s) (scene s) (camera s) (renderer s)
    (groundMesh s) v (groundMaterial s) (ballMaterial s) (groundBody s)
    (ballRadius s) (balls s) (objects s) (bodyStore s) (object3DId s)
    (bodyId s).
Definition set_balls (v : list Ball) (s : GravityScene) : GravityScene :=
  mkGravityScene
    (container s) (gravityValue s) (scene s) (camera s) (renderer s)
    (groundMesh s) (world s) (groundMaterial s) (ballMaterial s)
    (groundBody s) (ballRadius s) v (objects s) (bodyStore s) (object3DId s)
    (bodyId s).
Definition set_objects (v : gmap nat Object3D) (s : GravityScene) : GravityScene :=
  mkGravityScene
    (container s) (gravityValue s) (scene s) (camera s) (renderer s)
    (groundMesh s) (world s) (groundMaterial s) (ballMaterial s)
    (groundBody s) (ballRadius s) (balls s) v (bodyStore s) (object3DId s)
    (bodyId s).
Definition set_bodyStore (v : gmap nat Body) (s : GravityScene) : GravityScene :=
  mkGravityScene
    (container s) (gravityValue s) (scene s) (camera s) (renderer s)
    (groundMesh s) (world s) (groundMaterial s) (ballMaterial s)
    (groundBody s) (ballRadius s) (balls s) (objects s) v (object3DId s)
    (bodyId s).
Definition set_object3DId (v : nat) (s : GravityScene) : GravityScene :=
  mkGravityScene
    (container s) (gravityValue s) (scene s) (camera s) (renderer s)
    (groundMesh s) (world s) (groundMaterial s) (ballMaterial s)
    (groundBody s) (ballRadius s) (balls s) (objects s) (bodyStore s) v
    (bodyId s).
Definition set_bodyId (v : nat) (s : GravityScene) : GravityScene :=
  mkGravityScene
    (container s) (gravityValue s) (scene s) (camera s) (renderer s)
    (groundMesh s) (world s) (groundMaterial s) (ballMaterial s)
    (groundBody s) (ballRadius s) (balls s) (objects s) (bodyStore s)
    (object3DId s) v.

Definition world_set_gravity (g : Vec3) (w : World Sim) : World Sim :=
  mkWorld g (broadphase w) (solver_iterations w) (contactmaterials w)
          (bodies w) (internal w).
Definition world_set_bodies (l : list nat) (w : World Sim) : World Sim :=
  mkWorld (gravity w) (broadphase w) (solver_iterations w)
          (contactmaterials w) l (internal w).
Definition world_set_internal (i : Sim) (w : World Sim) : World Sim :=
  mkWorld (gravity w) (broadphase w) (solver_iterations w)
          (contactmaterials w) (bodies w) i.

(** ** Array and library operations used by the class *)

(** [Array.prototype.indexOf] *)
Definition indexOf (x : nat) (l : list nat) : option nat :=
  fst <$> list_find (λ y, y = x) l.

(** [const index = arr.indexOf(x); if (index !== -1) arr.splice(index, 1)]:
    the core of both [Object3D.remove] and [World.removeBody]. *)
Definition array_remove (x : nat) (l : list nat) : list nat :=
  match indexOf x l with
  | Some i => delete i l
  | None => l
  end.

(** [this.scene.add(obj)] for a node that was just constructed (it has no
    parent to be detached from): the node is pushed onto the children. *)
Definition scene_add (id : nat) (s : GravityScene) : GravityScene :=
  set_scene (scene s ++ [id]) s.

(** [this.scene.remove(obj)] *)
Definition scene_remove (id : nat) (s : GravityScene) : GravityScene :=
  set_scene (array_remove id (scene s)) s.

(** [this.world.addBody(body)]: ignored when the body is already there. *)
Definition world_addBody (id : nat) (s : GravityScene) : GravityScene :=
  if decide (id ∈ bodies (world s)) then s
  else set_world (world_set_bodies (bodies (world s) ++ [id]) (world s)) s.

(** [this.world.removeBody(body)] *)
Definition world_removeBody (id : nat) (s : GravityScene) : GravityScene :=
  set_world (world_set_bodies (array_remove id (bodies (world s))) (world s)) s.

(** [this.world.step(dt, timeSinceLastCalled)]: every body of the world gets
    the state the integrator assigns to it. *)
Definition world_step (dt timeSinceLastCalled : float) (s : GravityScene)
  : GravityScene :=
  let w := world s in
  let snapshot := (λ id, bodyStore s !!! id) <$> bodies w in
  let next := imap (λ k id,
      (id, step_body w dt timeSinceLastCalled snapshot k (bodyStore s !!! id)))
    (bodies w) in
  set_world (world_set_internal
               (step_internal w dt timeSinceLastCalled snapshot) w)
    (set_bodyStore (foldr (λ p st, <[p.1 := p.2]> st) (bodyStore s) next) s).

(** [this.renderer.render(this.scene, this.camera)] *)
Definition render (s : GravityScene) : GravityScene :=
  let frame := mkFrame ((λ id, (id, objects s !!! id)) <$> scene s) (camera s) in
  set_renderer (mkRenderer (antialias (renderer s)) (width (renderer s))
                  (height (renderer s)) (frames (renderer s) ++ [frame])) s.

(** ** The class [GravityScene] *)

(** [new THREE.Mesh(...)], [new THREE.DirectionalLight(...)]: the node is
    stored under the next free handle, which is returned. *)
Definition new_object (o : Object3D) (s : GravityScene) : nat * GravityScene :=
  (object3DId s,
   set_object3DId (S (object3DId s))
     (set_objects (<[object3DId s := o]> (objects s)) s)).

(** [new CANNON.Body(...)], likewise. *)
Definition new_body (b : Body) (s : GravityScene) : nat * GravityScene :=
  (bodyId s,
   set_bodyId (S (bodyId s))
     (set_bodyStore (<[bodyId s := b]> (bodyStore s)) s)).

(** [onWindowResize()] *)
Definition onWindowResize (s : GravityScene) : GravityScene :=
  let w := clientWidth (container s) in
  let h := clientHeight (container s) in
  let s := set_camera (camera_set_aspect (w / h) (camera s)) s in
  let s := set_camera (updateProjectionMatrix (camera s)) s in
  set_renderer (setSize w h (renderer s)) s.

(** [constructor(container, gravityValue)], up to its last statement: the
    scene controller with every field assigned, the light and the ground mesh
    added to the scene and the ground body added to the world.  The light,
    the ground mesh and the ground body are the first objects created, so
    they get the handles 0, 1 and 0; the record holds the values the source
    assigns to the fields, and the calls that follow are the two [scene.add]
    and the [world.addBody]. *)
Definition constructor_fields (container : Container) (gravityValue : float)
  : GravityScene :=
  let camera :=
    camera_set_position (mkVec3 0 5 10)
      (PerspectiveCamera 60 (clientWidth container / clientHeight container)
                         0.1 1000) in
  let renderer :=
    setSize (clientWidth container) (clientHeight container)
      (mkRenderer true 300 150 []) in
  let light :=
    obj_set_position (mkVec3 5 10 7)
      (new_Object3D (DirectionalLight 0xffffff 1)) in
  let ground :=
    obj_set_receiveShadow true
      (obj_set_position (set_y 1 zero3)
         (obj_set_quaternion (setFromEuler (- Math_PI / 2) 0 0)
            (new_Object3D (Mesh (PlaneGeometry 20 20) 0x555555)))) in
  let groundMaterial := mkMaterial "groundMaterial" in
  let ballMaterial := mkMaterial "ballMaterial" in
  let contactMaterial :=
    mkContactMaterial ballMaterial groundMaterial 0.4 0.8 in
  let ballBallContactMaterial :=
    mkContactMaterial ballMaterial ballMaterial 0.3 0.9 in
  let world :=
    mkWorld (Vec3_set 0 (- gravityValue) 0 zero3) NaiveBroadphase 10
            [contactMaterial; ballBallContactMaterial] [] Sim_new in
  let body :=
    body_set_position (set_y 1 zero3)
      (body_set_quaternion (setFromEuler (- Math_PI / 2) 0 0)
         (new_Body 0 Plane groundMaterial)) in
  let s :=
    mkGravityScene container gravityValue [] camera renderer 1 world
      groundMaterial ballMaterial 0 1 []
      (<[1%nat := ground]> (<[0%nat := light]> ∅)) (<[0%nat := body]> ∅)
      2 1 in
  let s := scene_add 0 s in
  let s := scene_add (groundMesh s) s in
  world_addBody (groundBody s) s.

(** [constructor(container, gravityValue)]: all of the above, and the closing
    [this.onWindowResize()]. *)
Definition constructor (container : Container) (gravityValue : float)
  : GravityScene :=
  onWindowResize (constructor_fields container gravityValue).

(** The [change] listener of the gravity input. *)
Definition gravityInput_change (value : string) (s : GravityScene)
  : GravityScene :=
  let val := parseFloat value in
  if negb (is_nan val) then
    let s := set_gravityValue val s in
    set_world
      (world_set_gravity
         (Vec3_set 0 (- gravityValue s) 0 (gravity (world s))) (world s)) s
  else s.

(** [addBall()] *)
Definition addBall (s : GravityScene) : GravityScene :=
  let ballGeo := SphereGeometry (ballRadius s) 32 32 in
  let '(ballMesh, s) :=
    new_object (obj_set_castShadow true
                  (new_Object3D (Mesh ballGeo 0xff4444))) s in
  let s := scene_add ballMesh s in
  let ballShape := Sphere (ballRadius s) in
  let '(ballBody, s) :=
    new_body (body_set_linearDamping 0.31
                (body_set_position (mkVec3 0 8 0)
                   (new_Body 5 ballShape (ballMaterial s)))) s in
  let s := world_addBody ballBody s in
  set_balls (balls s ++ [mkBall ballMesh ballBody false]) s.

(** The test of [animate] on one ball:
    [!ball.done && velocity < 0.1 && nearGround]. *)
Definition resting (s : GravityScene) (ball : Ball) : bool :=
  let b := bodyStore s !!! body ball in
  let velocity := Vec3_length (velocity b) in
  let nearGround := (vy (body_position b) <=? ballRadius s + 1)%float in
  negb (done ball) && (velocity <? 0.1)%float && nearGround.

(** The two assignments that copy a body's transform to a node:
    [mesh.position.copy(body.position)] and
    [mesh.quaternion.copy(body.quaternion)]. *)
Definition sync (b : Body) (o : Object3D) : Object3D :=
  obj_set_quaternion (body_quaternion b) (obj_set_position (body_position b) o).

(** One turn of the loop of [animate], at index [i].  Reading a property of
    [this.balls[i]] when [i] is out of range throws a [TypeError]. *)
Definition animate_body (i : nat) (s : GravityScene)
  : completion GravityScene :=
  match balls s !! i with
  | None => Throw TypeError
  | Some ball =>
    let b := bodyStore s !!! body ball in
    let s := set_objects (alter (sync b) (mesh ball) (objects s)) s in
    if resting s ball then
      let s := set_balls (<[i := ball_set_done true ball]> (balls s)) s in
      let s := scene_remove (mesh ball) s in
      let s := world_removeBody (body ball) s in
      Normal (set_balls (delete i (balls s)) s)
    else Normal s
  end.

(** [for (let i = this.balls.length - 1; i >= 0; i--) { ... }], with [n]
    standing for [i + 1]. *)
Fixpoint animate_loop (n : nat) (s : GravityScene) : completion GravityScene :=
  match n with
  | 0 => Normal s
  | S i => s' ← animate_body i s; animate_loop i s'
  end.

(** The same loop, also returning the balls it read, one per turn and in the
    order of the turns. *)
Fixpoint animate_loop_trace (n : nat) (s : GravityScene)
  : completion (list Ball * GravityScene) :=
  match n with
  | 0 => Normal ([], s)
  | S i =>
    match balls s !! i with
    | None => Throw TypeError
    | Some ball =>
      s' ← animate_body i s;
      r ← animate_loop_trace i s';
      Normal (ball :: r.1, r.2)
    end
  end.

(** [animate()]; [delta] is what [this.clock.getDelta()] returns. *)
Definition animate (delta : float) (s : GravityScene)
  : completion GravityScene :=
  let s := world_step (1 / 60) delta s in
  s ← animate_loop (length (balls s)) s;
  Normal (render s).

(** ** Events

    The scene is driven by four kinds of callbacks, each running to
    completion: a click on the canvas, a change of the gravity input (the
    listener exists only when the container has such an input), a resize of
    the window (the container has its new client size when the listener
    runs), and an animation frame. *)

Inductive Event :=
  | Click
  | Change (value : string)
  | Resize (w h : float)
  | AnimationFrame (delta : float).

Definition dispatch (e : Event) (s : GravityScene) : completion GravityScene :=
  match e with
  | Click => Normal (addBall s)
  | Change value =>
    if has_gravityInput (container s)
    then Normal (gravityInput_change value s) else Normal s
  | Resize w h =>
    Normal (onWindowResize
              (set_container
                 (mkContainer w h (has_gravityInput (container s))) s))
  | AnimationFrame delta => animate delta s
  end.

(** The states a scene controller can be in. *)
Inductive reachable : GravityScene → Prop :=
  | reachable_new c g : reachable (constructor c g)
  | reachable_event s e s' :
      reachable s → dispatch e s = Normal s' → reachable s'.

(** Runs of events. *)
Inductive run : GravityScene → list Event → GravityScene → Prop :=
  | run_nil s : run s [] s
  | run_cons s e s' es s'' :
      dispatch e s = Normal s' → run s' es s'' → run s (e :: es) s''.

(** ** Auxiliary definitions for the properties *)

(** The state after a turn of the loop that does not remove the ball it
    visits, and after one that does. *)
Definition synced_at (ball : Ball) (s : GravityScene) : GravityScene :=
  set_objects
    (alter (sync (bodyStore s !!! body ball)) (mesh ball) (objects s)) s.

Definition removed_at (i : nat) (ball : Ball) (s : GravityScene)
  : GravityScene :=
  let s := synced_at ball s in
  let s := set_balls (<[i := ball_set_done true ball]> (balls s)) s in
  let s := scene_remove (mesh ball) s in
  let s := world_removeBody (body ball) s in
  set_balls (delete i (balls s)) s.

(** Well-formed states: the children of the scene are the light, the ground
    and one mesh per ball, in the order of the collection; the bodies of the
    world are the ground and one body per ball, likewise; no handle occurs
    twice; no ball of the collection is flagged [done]; every handle in use
    denotes a stored object and is below the next free handle; the radius is
    1; the gravity vector points down with the stored magnitude; the ground
    mesh and the ground body are the ones the constructor made. *)
Record wf (s : GravityScene) : Prop := mk_wf {
  wf_scene : scene s = 0 :: groundMesh s :: (mesh <$> balls s);
  wf_scene_NoDup : NoDup (scene s);
  wf_bodies : bodies (world s) = groundBody s :: (body <$> balls s);
  wf_bodies_NoDup : NoDup (bodies (world s));
  wf_done : ∀ ball, ball ∈ balls s → done ball = false;
  wf_objects : ∀ id, id ∈ scene s → is_Some (objects s !! id);
  wf_object3DId : ∀ id, is_Some (objects s !! id) → id < object3DId s;
  wf_bodyStore : ∀ id, id ∈ bodies (world s) → is_Some (bodyStore s !! id);
  wf_bodyId : ∀ id, is_Some (bodyStore s !! id) → id < bodyId s;
  wf_ballRadius : ballRadius s = 1%float;
  wf_gravity : gravity (world s) = mkVec3 0 (- gravityValue s) 0;
  wf_groundMesh : groundMesh s = 1;
  wf_groundBody : groundBody s = 0
}.

(** A ball's node shows the transform of the ball's body. *)
Definition synced (s : GravityScene) (ball : Ball) : Prop :=
  position (objects s !!! mesh ball)
    = body_position (bodyStore s !!! body ball) ∧
  quaternion (objects s !!! mesh ball)
    = body_quaternion (bodyStore s !!! body ball).

(** What the loop of [animate] leaves alone: everything but the balls, the
    children of the scene, the bodies of the world and the stored nodes. *)
Record loop_frame (s s' : GravityScene) : Prop := mk_loop_frame {
  lf_container : container s' = container s;
  lf_gravityValue : gravityValue s' = gravityValue s;
  lf_camera : camera s' = camera s;
  lf_renderer : renderer s' = renderer s;
  lf_groundMesh : groundMesh s' = groundMesh s;
  lf_gravity : gravity (world s') = gravity (world s);
  lf_internal : internal (world s') = internal (world s);
  lf_groundMaterial : groundMaterial s' = groundMaterial s;
  lf_ballMaterial : ballMaterial s' = ballMaterial s;
  lf_groundBody : groundBody s' = groundBody s;
  lf_ballRadius : ballRadius s' = ballRadius s;
  lf_bodyStore : bodyStore s' = bodyStore s;
  lf_object3DId : object3DId s' = object3DId s;
  lf_bodyId : bodyId s' = bodyId s
}.

(** [later s s']: handles only grow from [s] to [s'], and a ball of [s'] is
    either a ball of [s] or was created after [s]. *)
Definition later (s s' : GravityScene) : Prop :=
  object3DId s ≤ object3DId s' ∧ bodyId s ≤ bodyId s' ∧
  ∀ ball, ball ∈ balls s' →
    ball ∈ balls s ∨ (object3DId s ≤ mesh ball ∧ bodyId s ≤ body ball).

(** Playing a list of events, stopping at the first one that throws. *)
Fixpoint play (es : list Event) (s : GravityScene) : completion GravityScene :=
  match es with
  | [] => Normal s
  | e :: es => s' ← dispatch e s; play es s'
  end.

(** Every ball has its one node in the scene and its one body in the world,
    and the scene and the world hold nothing else besides the light and the
    ground. *)
Definition paired (s : GravityScene) : Prop :=
  scene s = 0 :: groundMesh s :: (mesh <$> balls s) ∧
  NoDup (scene s) ∧
  bodies (world s) = groundBody s :: (body <$> balls s) ∧
  NoDup (bodies (world s)).

(** ** Runs, counted *)

(** The number of clicks and of animation frames in a list of events. *)
Fixpoint clicks (es : list Event) : nat :=
  match es with
  | [] => 0
  | Click :: es => S (clicks es)
  | _ :: es => clicks es
  end.

Fixpoint ticks (es : list Event) : nat :=
  match es with
  | [] => 0
  | AnimationFrame _ :: es => S (ticks es)
  | _ :: es => ticks es
  end.

(** The gravity value that the changes of a list of events lead to from [g],
    when the container has a gravity input: every change whose text parses
    to a number replaces the value, every other event keeps it. *)
Fixpoint gravity_after (g : float) (es : list Event) : float :=
  match es with
  | [] => g
  | Change value :: es =>
    gravity_after
      (if is_nan (parseFloat value) then g else parseFloat value) es
  | _ :: es => gravity_after g es
  end.

(** The camera and the renderer are the ones the constructor makes for the
    client size of the container. *)
Definition fits_container (s : GravityScene) : Prop :=
  camera s
  = camera_set_position (mkVec3 0 5 10)
      (PerspectiveCamera 60
         (clientWidth (container s) / clientHeight (container s)) 0.1 1000) ∧
  width (renderer s) = clientWidth (container s) ∧
  height (renderer s) = clientHeight (container s).

(** ** The three scenes of the page

    The module creates one scene per planet and drives all three from one
    animation callback.  The containers are the three elements that
    [document.getElementById] finds; every scene has its own clock, so a
    frame brings one elapsed time per scene. *)

Inductive Planet := Earth | Moon | Jupiter.

Record App := mkApp {
  earthScene : GravityScene;
  moonScene : GravityScene;
  jupiterScene : GravityScene
}.

(** The three [new GravityScene(...)] at the top level of the module. *)
Definition main (earthContainer moonContainer jupiterContainer : Container)
  : App :=
  mkApp (constructor earthContainer 9.8)
        (constructor moonContainer 1.6)
        (constructor jupiterContainer 24.8).

(** [animateAll()]: the three scenes are animated in this order; a scene
    that throws stops the callback before the scenes after it. *)
Definition animateAll (deltaEarth deltaMoon deltaJupiter : float) (a : App)
  : completion App :=
  e ← animate deltaEarth (earthScene a);
  m ← animate deltaMoon (moonScene a);
  j ← animate deltaJupiter (jupiterScene a);
  Normal (mkApp e m j).

Definition scene_of (p : Planet) (a : App) : GravityScene :=
  match p with
  | Earth => earthScene a
  | Moon => moonScene a
  | Jupiter => jupiterScene a
  end.

Definition set_scene_of (p : Planet) (s : GravityScene) (a : App) : App :=
  match p with
  | Earth => mkApp s (moonScene a) (jupiterScene a)
  | Moon => mkApp (earthScene a) s (jupiterScene a)
  | Jupiter => mkApp (earthScene a) (moonScene a) s
  end.

(** What happens on the page: a click on the canvas of one scene, a change of
    the gravity input of one scene, a resize of the window (all three scenes
    listen to it, in the order they were created; each container has its new
    client size), and an animation frame. *)
Inductive AppEvent :=
  | CanvasClick (p : Planet)
  | InputChange (p : Planet) (value : string)
  | WindowResize (earth moon jupiter : float * float)
  | PageFrame (deltaEarth deltaMoon deltaJupiter : float).

Definition app_dispatch (ev : AppEvent) (a : App) : completion App :=
  match ev with
  | CanvasClick p =>
    s ← dispatch Click (scene_of p a); Normal (set_scene_of p s a)
  | InputChange p value =>
    s ← dispatch (Change value) (scene_of p a); Normal (set_scene_of p s a)
  | WindowResize earth moon jupiter =>
    e ← dispatch (Resize earth.1 earth.2) (earthScene a);
    m ← dispatch (Resize moon.1 moon.2) (moonScene a);
    j ← dispatch (Resize jupiter.1 jupiter.2) (jupiterScene a);
    Normal (mkApp e m j)
  | PageFrame deltaEarth deltaMoon deltaJupiter =>
    animateAll deltaEarth deltaMoon deltaJupiter a
  end.

(** The states of the page. *)
Inductive app_reachable : App → Prop :=
  | app_reachable_main cE cM cJ : app_reachable (main cE cM cJ)
  | app_reachable_event a ev a' :
      app_reachable a → app_dispatch ev a = Normal a' → app_reachable a'.

(** Playing a list of page events, stopping at the first one that throws. *)
Fixpoint app_play (evs : list AppEvent) (a : App) : completion App :=
  match evs with
  | [] => Normal a
  | ev :: evs => a' ← app_dispatch ev a; app_play evs a'
  end.

End GravityScene.

(** * A sample platform

    One instance of [Platform], small enough to run: it is used to evaluate
    the model on concrete inputs.  Sine and cosine are short Taylor
    polynomials; [parseFloat] reads unsigned decimal integers and yields [NaN]
    on anything else; the projection matrix is kept as its four parameters;
    the integrator lets every body with a mass fall under the gravity of the
    world for the elapsed time and stops it at height 2. *)

Module Sample.

Definition sin (x : float) : float :=
  (x - x * x * x / 6 + x * x * x * x * x / 120)%float.

Definition cos (x : float) : float :=
  (1 - x * x / 2 + x * x * x * x / 24)%float.

Definition digit (c : Ascii.ascii) : option float :=
  let n := Ascii.nat_of_ascii c in
  if decide (48 ≤ n)
  then [0; 1; 2; 3; 4; 5; 6; 7; 8; 9]%float !! (n - 48)
  else None.

Fixpoint digits (acc : float) (s : string) : float :=
  match s with
  | EmptyString => acc
  | String c s' =>
    match digit c with
    | Some d => digits (acc * 10 + d) s'
    | None => nan
    end
  end.

Definition parse_digits (s : string) : float :=
  match s with
  | EmptyString => nan
  | _ => digits 0 s
  end.

Definition fall (w : World float) (dt timeSinceLastCalled : float)
    (_ : list Body) (_ : nat) (b : Body) : Body :=
  if (mass b =? 0)%float then b
  else
    let v := (vy (velocity b) + vy (gravity w) * timeSinceLastCalled)%float in
    let y := (vy (body_position b) + v * timeSinceLastCalled)%float in
    if (y <? 2)%float
    then mkBody (mass b) (shape b) (material b)
                (set_y 2 (body_position b)) (body_quaternion b)
                zero3 (angularVelocity b) (linearDamping b)
    else mkBody (mass b) (shape b) (material b)
                (set_y y (body_position b)) (body_quaternion b)
                (mkVec3 0 v 0) (angularVelocity b) (linearDamping b).

#[export] Instance platform : Platform := {|
  Math_sin := sin;
  Math_cos := cos;
  parseFloat := parse_digits;
  Matrix4 := float * float * float * float;
  makePerspective := λ fov aspect near far, (fov, aspect, near, far);
  Sim := float;
  Sim_new := 0%float;
  step_internal := λ w dt timeSinceLastCalled _,
    (internal w + timeSinceLastCalled)%float;
  step_body := fall
|}.

(** An 800 by 600 container with a gravity input, under Earth gravity. *)
Definition start : GravityScene :=
  constructor (mkContainer 800 600 true) 9.8.

(** The state [es] leads to from [start] ([start] itself if an event
    throws). *)
Definition after (es : list Event) : GravityScene :=
  match play es start with
  | Normal s => s
  | Throw _ => start
  end.

(** One ball in the air, half a second after it was dropped: the next half
    second brings it to the ground. *)
Definition falling : GravityScene := after [Click; AnimationFrame 0.5].

(** A page whose moon container has a gravity input and whose other two
    containers have none, and the state a list of page events leads to from
    it (the page itself if an event throws). *)
Definition page : App :=
  main (mkContainer 800 600 false) (mkContainer 800 600 true)
       (mkContainer 400 300 false).

Definition page_after (evs : list AppEvent) : App :=
  match app_play evs page with
  | Normal a => a
  | Throw _ => page
  end.

End Sample.

(** * Properties *)

Section Properties.
Context {platform : Platform}.

(** ** Numbers *)

(** Negation only flips the sign bit. *)
Lemma float_opp_opp (x : float) : (- - x)%float = x.
Proof.
  apply Prim2SF_inj. rewrite !opp_spec.
  destruct (Prim2SF x) as [s|s| |s m e]; simpl; by rewrite ?negb_involutive.
Qed.

(** ** Arrays *)

Lemma indexOf_NoDup (l : list nat) (i x : nat) :
  NoDup l → l !! i = Some x → indexOf x l = Some i.
Proof.
  intros Hnd Hi. unfold indexOf.
  destruct (list_find (λ y, y = x) l) as [[j y]|] eqn:Hfind; simpl.
  - apply list_find_Some in Hfind as (Hj & -> & _).
    f_equal. by eapply NoDup_lookup.
  - apply list_find_None in Hfind.
    rewrite Forall_forall in Hfind.
    destruct (Hfind x); [|done]. by eapply list_elem_of_lookup_2.
Qed.

Lemma array_remove_NoDup (l : list nat) (i x : nat) :
  NoDup l → l !! i = Some x → array_remove x l = delete i l.
Proof.
  intros Hnd Hi. unfold array_remove. by rewrite (indexOf_NoDup l i x).
Qed.

Lemma array_remove_absent (l : list nat) (x : nat) :
  x ∉ l → array_remove x l = l.
Proof.
  intros Hx. unfold array_remove, indexOf.
  destruct (list_find (λ y, y = x) l) as [[j y]|] eqn:Hfind; [|done].
  apply list_find_Some in Hfind as (Hj & -> & _).
  destruct Hx. by eapply list_elem_of_lookup_2.
Qed.

Lemma delete_insert_same {A} (l : list A) (i : nat) (x : A) :
  delete i (<[i := x]> l) = delete i l.
Proof.
  revert i. induction l as [|a l IH]; intros [|i]; simpl; [done..|].
  by rewrite IH.
Qed.

Lemma take_delete_same {A} (l : list A) (i : nat) :
  take i (delete i l) = take i l.
Proof.
  revert i. induction l as [|a l IH]; intros [|i]; simpl; [done..|].
  by rewrite IH.
Qed.

Lemma drop_delete_same {A} (l : list A) (i : nat) :
  drop i (delete i l) = drop (S i) l.
Proof.
  revert i. induction l as [|a l IH]; intros [|i]; simpl; [done..|].
  by rewrite IH.
Qed.

Lemma NoDup_fmap_elem_inj {A B} (f : A → B) (l : list A) (x y : A) :
  NoDup (f <$> l) → x ∈ l → y ∈ l → f x = f y → x = y.
Proof.
  intros Hnd Hx Hy Hf.
  apply list_elem_of_lookup in Hx as [i Hi].
  apply list_elem_of_lookup in Hy as [j Hj].
  assert (i = j) as ->; [|congruence].
  eapply (NoDup_lookup _ i j (f x) Hnd); rewrite list_lookup_fmap.
  - by rewrite Hi.
  - by rewrite Hj, Hf.
Qed.

(** ** One turn of the loop *)

(** [resting] only reads the bodies and the radius. *)
Lemma resting_ext (s s' : GravityScene) (ball : Ball) :
  bodyStore s' = bodyStore s → ballRadius s' = ballRadius s →
  resting s' ball = resting s ball.
Proof. unfold resting. by intros -> ->. Qed.

Lemma animate_body_eq (i : nat) (s : GravityScene) (ball : Ball) :
  balls s !! i = Some ball →
  animate_body i s =
    Normal (if resting s ball then removed_at i ball s else synced_at ball s).
Proof.
  intros Hi. unfold animate_body. rewrite Hi.
  change (set_objects _ s) with (synced_at ball s).
  rewrite (resting_ext s (synced_at ball s)) by done.
  by destruct (resting s ball).
Qed.

Lemma balls_removed_at (i : nat) (ball : Ball) (s : GravityScene) :
  balls (removed_at i ball s) = delete i (balls s).
Proof. unfold removed_at. simpl. apply delete_insert_same. Qed.

Lemma bodyStore_turn (i : nat) (ball : Ball) (s : GravityScene) :
  bodyStore (if resting s ball then removed_at i ball s else synced_at ball s)
  = bodyStore s.
Proof. by destruct (resting s ball). Qed.

Lemma ballRadius_turn (i : nat) (ball : Ball) (s : GravityScene) :
  ballRadius (if resting s ball then removed_at i ball s else synced_at ball s)
  = ballRadius s.
Proof. by destruct (resting s ball). Qed.

Lemma balls_turn (i : nat) (ball : Ball) (s : GravityScene) :
  balls (if resting s ball then removed_at i ball s else synced_at ball s)
  = if resting s ball then delete i (balls s) else balls s.
Proof. destruct (resting s ball); [apply balls_removed_at|done]. Qed.

(** ** The loop: what is left of the collection, and what was visited *)

Lemma animate_loop_trace_spec (n : nat) (s : GravityScene) :
  n ≤ length (balls s) →
  ∃ s',
    animate_loop_trace n s = Normal (reverse (take n (balls s)), s') ∧
    animate_loop n s = Normal s' ∧
    balls s' = filter (λ ball, resting s ball = false) (take n (balls s))
               ++ drop n (balls s) ∧
    bodyStore s' = bodyStore s ∧
    ballRadius s' = ballRadius s.
Proof.
  revert s. induction n as [|i IH]; intros s Hn.
  { exists s. simpl. by rewrite take_0, drop_0. }
  destruct (lookup_lt_is_Some_2 (balls s) i) as [ball Hi]; [lia|].
  set (s1 := if resting s ball then removed_at i ball s else synced_at ball s).
  assert (Hb1 : balls s1 = if resting s ball then delete i (balls s) else balls s)
    by apply balls_turn.
  assert (Htake : take i (balls s1) = take i (balls s)).
  { rewrite Hb1. destruct (resting s ball); [apply take_delete_same|done]. }
  destruct (IH s1) as (s' & Htr & Hloop & Hballs & Hstore & Hrad).
  { rewrite Hb1. destruct (resting s ball); [rewrite length_delete by eauto|]; lia. }
  assert (Hrest : ∀ b, resting s1 b = resting s b).
  { intros b. apply resting_ext; [apply bodyStore_turn|apply ballRadius_turn]. }
  exists s'. simpl. rewrite Hi, (animate_body_eq i s ball Hi). fold s1. simpl.
  rewrite Htr, Hloop. simpl. rewrite Htake.
  rewrite (take_S_r _ _ _ Hi), reverse_snoc.
  split; [done|]. split; [done|].
  split; [|split; [by rewrite Hstore; apply bodyStore_turn
                  |by rewrite Hrad; apply ballRadius_turn]].
  rewrite Hballs, Htake, filter_app.
  rewrite (list_filter_iff _ (λ b, resting s b = false))
    by (intros b; by rewrite Hrest).
  rewrite <-(assoc_L (++)). f_equal.
  rewrite Hb1. destruct (resting s ball) eqn:Hr.
  - rewrite drop_delete_same. rewrite filter_cons_False by (rewrite Hr; done).
    by rewrite filter_nil.
  - rewrite filter_cons_True by done. rewrite filter_nil. simpl.
    by rewrite <-(drop_S _ _ _ Hi).
Qed.

(** ** Well-formedness is established by the constructor and kept by every
    callback *)

Lemma wf_constructor (c : Container) (g : float) : wf (constructor c g).
Proof.
  split; simpl; try done.
  - apply NoDup_cons; split; [|apply NoDup_singleton].
    rewrite list_elem_of_singleton. lia.
  - apply NoDup_singleton.
  - intros ball Hball. by apply elem_of_nil in Hball.
  - intros id. rewrite elem_of_cons, list_elem_of_singleton.
    rewrite !lookup_insert_is_Some. intros [-> | ->]; [right|left]; auto.
  - intros id. rewrite !lookup_insert_is_Some, lookup_empty.
    intros [<- | [_ [<- | [_ Hid]]]]; [lia..|by apply is_Some_None in Hid].
  - intros id. rewrite list_elem_of_singleton, lookup_insert_is_Some. auto.
  - intros id. rewrite lookup_insert_is_Some, lookup_empty.
    intros [<- | [_ Hid]]; [lia|by apply is_Some_None in Hid].
Qed.

Lemma wf_onWindowResize (s : GravityScene) : wf s → wf (onWindowResize s).
Proof. intros []. by split. Qed.

Lemma wf_set_container (c : Container) (s : GravityScene) :
  wf s → wf (set_container c s).
Proof. intros []. by split. Qed.

Lemma wf_gravityInput_change (value : string) (s : GravityScene) :
  wf s → wf (gravityInput_change value s).
Proof.
  intros Hwf. unfold gravityInput_change.
  destruct (is_nan (parseFloat value)); simpl; [done|].
  destruct Hwf. by split.
Qed.

Lemma wf_render (s : GravityScene) : wf s → wf (render s).
Proof. intros []. by split. Qed.

Lemma wf_addBall (s : GravityScene) : wf s → wf (addBall s).
Proof.
  intros Hwf.
  assert (Hm : object3DId s ∉ scene s).
  { intros Hin. apply (wf_objects s Hwf), (wf_object3DId s Hwf) in Hin. lia. }
  assert (Hb : bodyId s ∉ bodies (world s)).
  { intros Hin. apply (wf_bodyStore s Hwf), (wf_bodyId s Hwf) in Hin. lia. }
  unfold addBall, new_object, new_body, world_addBody. simpl.
  rewrite decide_False by done.
  destruct Hwf as [Hsc Hscnd Hbo Hbond Hdone Hobj Hoid Hbs Hbid Hrad Hgr Hgm Hgb].
  split; simpl; try done.
  - by rewrite Hsc, fmap_app.
  - apply NoDup_app. split; [done|]. split; [|apply NoDup_singleton].
    intros id Hid ->%list_elem_of_singleton. done.
  - by rewrite Hbo, fmap_app.
  - apply NoDup_app. split; [done|]. split; [|apply NoDup_singleton].
    intros id Hid ->%list_elem_of_singleton. done.
  - intros ball [Hball | ->%list_elem_of_singleton]%elem_of_app; auto.
  - intros id [Hid | ->%list_elem_of_singleton]%elem_of_app;
      rewrite lookup_insert_is_Some'; auto.
  - intros id [<- | Hid]%lookup_insert_is_Some'; [lia|].
    apply Hoid in Hid. lia.
  - intros id [Hid | ->%list_elem_of_singleton]%elem_of_app;
      rewrite lookup_insert_is_Some'; auto.
  - intros id [<- | Hid]%lookup_insert_is_Some'; [lia|].
    apply Hbid in Hid. lia.
Qed.

(** *** The physics step *)

Lemma fst_imap_pair {B} (f : nat → nat → B) (l : list nat) :
  (imap (λ k id, (id, f k id)) l).*1 = l.
Proof.
  revert f. induction l as [|x l IH]; intros f; [done|].
  simpl. f_equal. apply (IH (λ k, f (S k))).
Qed.

Lemma foldr_insert_is_Some (next : list (nat * Body)) (store : gmap nat Body)
    (id : nat) :
  is_Some (foldr (λ p st, <[p.1 := p.2]> st) store next !! id)
  ↔ id ∈ next.*1 ∨ is_Some (store !! id).
Proof.
  induction next as [|[id' b'] next IH]; simpl.
  - rewrite elem_of_nil. tauto.
  - rewrite lookup_insert_is_Some', elem_of_cons, IH. intuition congruence.
Qed.

Lemma foldr_insert_lookup (next : list (nat * Body)) (store : gmap nat Body)
    (id : nat) (b : Body) :
  NoDup next.*1 → (id, b) ∈ next →
  foldr (λ p st, <[p.1 := p.2]> st) store next !! id = Some b.
Proof.
  induction next as [|[id' b'] next IH]; simpl; intros Hnd Hin.
  - by apply elem_of_nil in Hin.
  - apply NoDup_cons in Hnd as [Hfresh Hnd].
    apply elem_of_cons in Hin as [[= <- <-]|Hin].
    + apply lookup_insert_eq.
    + rewrite lookup_insert_ne; [by apply IH|].
      intros <-. apply Hfresh.
      by apply (list_elem_of_fmap_2 fst) in Hin.
Qed.

Lemma wf_world_step (dt delta : float) (s : GravityScene) :
  wf s → wf (world_step dt delta s).
Proof.
  intros [Hsc Hscnd Hbo Hbond Hdone Hobj Hoid Hbs Hbid Hrad Hgr Hgm Hgb].
  split; simpl; try done.
  - intros id Hid. apply foldr_insert_is_Some. left. by rewrite fst_imap_pair.
  - intros id [Hid|Hid]%foldr_insert_is_Some; [|by apply Hbid].
    rewrite fst_imap_pair in Hid. by apply Hbid, Hbs.
Qed.

(** *** One turn of the loop *)

Lemma wf_synced_at (ball : Ball) (s : GravityScene) :
  wf s → wf (synced_at ball s).
Proof.
  intros [Hsc Hscnd Hbo Hbond Hdone Hobj Hoid Hbs Hbid Hrad Hgr Hgm Hgb].
  split; simpl; try done.
  - intros id Hid. apply lookup_alter_is_Some. by apply Hobj.
  - intros id Hid%lookup_alter_is_Some. by apply Hoid.
Qed.

Lemma scene_removed_at (i : nat) (ball : Ball) (s : GravityScene) :
  wf s → balls s !! i = Some ball →
  scene (removed_at i ball s) = delete (S (S i)) (scene s).
Proof.
  intros Hwf Hi. unfold removed_at. simpl.
  apply array_remove_NoDup; [apply Hwf|].
  rewrite (wf_scene s Hwf). simpl. by rewrite list_lookup_fmap, Hi.
Qed.

Lemma bodies_removed_at (i : nat) (ball : Ball) (s : GravityScene) :
  wf s → balls s !! i = Some ball →
  bodies (world (removed_at i ball s)) = delete (S i) (bodies (world s)).
Proof.
  intros Hwf Hi. unfold removed_at. simpl.
  apply array_remove_NoDup; [apply Hwf|].
  rewrite (wf_bodies s Hwf). simpl. by rewrite list_lookup_fmap, Hi.
Qed.

Lemma wf_removed_at (i : nat) (ball : Ball) (s : GravityScene) :
  wf s → balls s !! i = Some ball → wf (removed_at i ball s).
Proof.
  intros Hwf Hi.
  pose proof (scene_removed_at i ball s Hwf Hi) as Hscene.
  pose proof (bodies_removed_at i ball s Hwf Hi) as Hbodies.
  pose proof (balls_removed_at i ball s) as Hballs.
  destruct Hwf as [Hsc Hscnd Hbo Hbond Hdone Hobj Hoid Hbs Hbid Hrad Hgr Hgm Hgb].
  split; rewrite ?Hscene, ?Hbodies, ?Hballs.
  - rewrite Hsc. simpl. by rewrite list_fmap_delete.
  - apply (sublist_NoDup _ (scene s)); [done|apply sublist_delete].
  - rewrite Hbo. simpl. by rewrite list_fmap_delete.
  - apply (sublist_NoDup _ (bodies (world s))); [done|apply sublist_delete].
  - intros b Hb%list_elem_of_delete_inv. by apply Hdone.
  - intros id Hid%list_elem_of_delete_inv. simpl.
    apply lookup_alter_is_Some. by apply Hobj.
  - simpl. intros id Hid%lookup_alter_is_Some. by apply Hoid.
  - intros id Hid%list_elem_of_delete_inv. by apply Hbs.
  - done.
  - done.
  - done.
  - done.
  - done.
Qed.

Lemma wf_turn (i : nat) (ball : Ball) (s : GravityScene) :
  wf s → balls s !! i = Some ball →
  wf (if resting s ball then removed_at i ball s else synced_at ball s).
Proof.
  intros Hwf Hi.
  destruct (resting s ball); [by apply wf_removed_at|by apply wf_synced_at].
Qed.

Lemma wf_animate_loop (n : nat) (s s' : GravityScene) :
  wf s → animate_loop n s = Normal s' → wf s'.
Proof.
  revert s. induction n as [|i IH]; simpl; intros s Hwf Hloop.
  - by injection Hloop as <-.
  - destruct (balls s !! i) as [ball|] eqn:Hi.
    + rewrite (animate_body_eq i s ball Hi) in Hloop. simpl in Hloop.
      eapply IH; [|done]. by apply wf_turn.
    + unfold animate_body in Hloop. by rewrite Hi in Hloop.
Qed.

Lemma wf_animate (delta : float) (s s' : GravityScene) :
  wf s → animate delta s = Normal s' → wf s'.
Proof.
  unfold animate. intros Hwf Hanim.
  destruct (animate_loop _ _) as [s1|] eqn:Hloop; [|done].
  simpl in Hanim. injection Hanim as <-.
  apply wf_render. eapply wf_animate_loop; [|done]. by apply wf_world_step.
Qed.

Lemma wf_dispatch (e : Event) (s s' : GravityScene) :
  wf s → dispatch e s = Normal s' → wf s'.
Proof.
  intros Hwf. destruct e as [|value|w h|delta]; simpl.
  - intros [= <-]. by apply wf_addBall.
  - destruct (has_gravityInput _); intros [= <-];
      [by apply wf_gravityInput_change|done].
  - intros [= <-]. by apply wf_onWindowResize, wf_set_container.
  - by apply wf_animate.
Qed.

Lemma reachable_wf (s : GravityScene) : reachable s → wf s.
Proof.
  induction 1 as [c g|s e s' _ IH Hd]; [apply wf_constructor|].
  by eapply wf_dispatch.
Qed.

Lemma wf_run (s s' : GravityScene) (es : list Event) :
  wf s → run s es s' → wf s'.
Proof.
  intros Hwf Hrun. induction Hrun as [|s e s1 es s2 Hd _ IH]; [done|].
  apply IH. by eapply wf_dispatch.
Qed.

Lemma reachable_run (s s' : GravityScene) (es : list Event) :
  reachable s → run s es s' → reachable s'.
Proof.
  intros Hr Hrun. induction Hrun as [|s e s1 es s2 Hd _ IH]; [done|].
  apply IH. by eapply reachable_event.
Qed.

(** *** What the loop leaves alone, and what it does to the nodes *)

Lemma loop_frame_turn (i : nat) (ball : Ball) (s : GravityScene) :
  loop_frame s (if resting s ball then removed_at i ball s else synced_at ball s).
Proof. by destruct (resting s ball). Qed.

Lemma loop_frame_trans (s1 s2 s3 : GravityScene) :
  loop_frame s1 s2 → loop_frame s2 s3 → loop_frame s1 s3.
Proof. intros [] []. split; congruence. Qed.

Lemma loop_frame_animate_loop (n : nat) (s s' : GravityScene) :
  animate_loop n s = Normal s' → loop_frame s s'.
Proof.
  revert s. induction n as [|i IH]; simpl; intros s Hloop.
  - by injection Hloop as <-.
  - destruct (balls s !! i) as [ball|] eqn:Hi.
    + rewrite (animate_body_eq i s ball Hi) in Hloop. simpl in Hloop.
      eapply loop_frame_trans; [apply (loop_frame_turn i ball)|by apply IH].
    + unfold animate_body in Hloop. by rewrite Hi in Hloop.
Qed.

Lemma objects_turn (i : nat) (ball : Ball) (s : GravityScene) :
  objects (if resting s ball then removed_at i ball s else synced_at ball s)
  = alter (sync (bodyStore s !!! body ball)) (mesh ball) (objects s).
Proof. by destruct (resting s ball). Qed.

Lemma wf_mesh_NoDup (s : GravityScene) : wf s → NoDup (mesh <$> balls s).
Proof.
  intros Hwf. pose proof (wf_scene_NoDup s Hwf) as Hnd.
  rewrite (wf_scene s Hwf) in Hnd.
  by apply NoDup_cons_1_2, NoDup_cons_1_2 in Hnd.
Qed.

Lemma wf_body_NoDup (s : GravityScene) : wf s → NoDup (body <$> balls s).
Proof.
  intros Hwf. pose proof (wf_bodies_NoDup s Hwf) as Hnd.
  rewrite (wf_bodies s Hwf) in Hnd.
  by apply NoDup_cons_1_2 in Hnd.
Qed.

Lemma NoDup_fmap_lookup_inj {A B} (f : A → B) (l : list A) (i j : nat)
    (x y : A) :
  NoDup (f <$> l) → l !! i = Some x → l !! j = Some y → f x = f y → i = j.
Proof.
  intros Hnd Hi Hj Hf.
  eapply (NoDup_lookup _ i j (f x) Hnd); rewrite list_lookup_fmap.
  - by rewrite Hi.
  - by rewrite Hj, Hf.
Qed.

Lemma animate_loop_objects (n : nat) (s s' : GravityScene) :
  wf s → animate_loop n s = Normal s' →
  (∀ k ball, k < n → balls s !! k = Some ball →
     objects s' !! mesh ball
     = sync (bodyStore s !!! body ball) <$> objects s !! mesh ball) ∧
  (∀ id, id ∉ mesh <$> take n (balls s) → objects s' !! id = objects s !! id).
Proof.
  revert s. induction n as [|i IH]; simpl; intros s Hwf Hloop.
  { injection Hloop as <-. split; [lia|done]. }
  destruct (balls s !! i) as [ball|] eqn:Hi;
    [|unfold animate_body in Hloop; by rewrite Hi in Hloop].
  rewrite (animate_body_eq i s ball Hi) in Hloop. simpl in Hloop.
  set (s1 := if resting s ball then removed_at i ball s else synced_at ball s)
    in Hloop.
  pose proof (wf_mesh_NoDup s Hwf) as Hnd.
  assert (Htake : take i (balls s1) = take i (balls s)).
  { unfold s1. rewrite balls_turn.
    destruct (resting s ball); [apply take_delete_same|done]. }
  assert (Hobj1 : objects s1
            = alter (sync (bodyStore s !!! body ball)) (mesh ball) (objects s))
    by apply objects_turn.
  assert (Hstore1 : bodyStore s1 = bodyStore s) by apply bodyStore_turn.
  destruct (IH s1 (wf_turn i ball s Hwf Hi) Hloop) as [IH1 IH2].
  rewrite Htake in IH2.
  assert (Hfresh : mesh ball ∉ mesh <$> take i (balls s)).
  { intros [b' [Hm Hb']]%list_elem_of_fmap.
    apply list_elem_of_lookup in Hb' as [k Hk].
    apply lookup_take_Some in Hk as [Hk Hlt].
    pose proof (NoDup_fmap_lookup_inj mesh _ _ _ _ _ Hnd Hi Hk Hm). lia. }
  split.
  - intros k b' Hk Hb'. destruct (decide (k = i)) as [->|Hne].
    + assert (b' = ball) as -> by congruence.
      rewrite (IH2 _ Hfresh), Hobj1. apply lookup_alter_eq.
    + assert (Hb1 : balls s1 !! k = Some b').
      { rewrite <-(lookup_take_lt _ i) by lia.
        rewrite Htake, lookup_take_lt by lia. done. }
      rewrite (IH1 k b' ltac:(lia) Hb1), Hstore1, Hobj1.
      rewrite lookup_alter_ne; [done|].
      intros Hm. apply Hne.
      symmetry. by apply (NoDup_fmap_lookup_inj mesh _ _ _ _ _ Hnd Hi Hb').
  - intros id Hid. rewrite (take_S_r _ _ _ Hi), fmap_app in Hid.
    apply not_elem_of_app in Hid as [Hid1 Hid2].
    rewrite (IH2 _ Hid1), Hobj1. apply lookup_alter_ne.
    intros <-. apply Hid2. by apply list_elem_of_singleton.
Qed.

Lemma animate_loop_synced (s s' : GravityScene) (ball : Ball) :
  wf s → animate_loop (length (balls s)) s = Normal s' →
  ball ∈ balls s → synced s' ball.
Proof.
  intros Hwf Hloop Hball.
  destruct (animate_loop_objects _ s s' Hwf Hloop) as [Hobj _].
  apply list_elem_of_lookup in Hball as [k Hk].
  specialize (Hobj k ball (lookup_lt_Some _ _ _ Hk) Hk).
  destruct (wf_objects s Hwf (mesh ball)) as [o Ho].
  { rewrite (wf_scene s Hwf). do 2 apply list_elem_of_further.
    apply list_elem_of_fmap_2. by eapply list_elem_of_lookup_2. }
  rewrite Ho in Hobj. simpl in Hobj.
  unfold synced. rewrite (lookup_total_correct _ _ _ Hobj).
  by rewrite (lf_bodyStore _ _ (loop_frame_animate_loop _ _ _ Hloop)).
Qed.

(** ** A whole tick *)

Lemma animate_spec (delta : float) (s : GravityScene) :
  wf s →
  ∃ s1,
    animate_loop (length (balls s)) (world_step (1 / 60) delta s) = Normal s1 ∧
    animate delta s = Normal (render s1) ∧
    wf s1 ∧
    loop_frame (world_step (1 / 60) delta s) s1 ∧
    balls s1 = filter (λ ball, resting (world_step (1 / 60) delta s) ball = false)
                      (balls s) ∧
    (∀ ball, ball ∈ balls s → synced s1 ball).
Proof.
  intros Hwf. set (s0 := world_step (1 / 60) delta s).
  assert (Hwf0 : wf s0) by by apply wf_world_step.
  destruct (animate_loop_trace_spec (length (balls s0)) s0)
    as (s1 & _ & Hloop & Hballs & _); [done|].
  rewrite firstn_all, drop_all, app_nil_r in Hballs.
  exists s1. split; [done|]. split.
  { unfold animate. fold s0. by rewrite Hloop. }
  split; [by eapply wf_animate_loop|].
  split; [by eapply loop_frame_animate_loop|].
  split; [done|].
  intros ball Hball. by apply (animate_loop_synced s0).
Qed.

Lemma wf_mesh_in_scene (s : GravityScene) (ball : Ball) :
  wf s → ball ∈ balls s → mesh ball ∈ scene s.
Proof.
  intros Hwf Hball. rewrite (wf_scene s Hwf).
  do 2 apply list_elem_of_further. by apply list_elem_of_fmap_2.
Qed.

Lemma wf_body_in_world (s : GravityScene) (ball : Ball) :
  wf s → ball ∈ balls s → body ball ∈ bodies (world s).
Proof.
  intros Hwf Hball. rewrite (wf_bodies s Hwf).
  apply list_elem_of_further. by apply list_elem_of_fmap_2.
Qed.

Lemma wf_handles_allocated (s : GravityScene) (ball : Ball) :
  wf s → ball ∈ balls s → mesh ball < object3DId s ∧ body ball < bodyId s.
Proof.
  intros Hwf Hball. split.
  - by apply (wf_object3DId s Hwf), (wf_objects s Hwf), wf_mesh_in_scene.
  - by apply (wf_bodyId s Hwf), (wf_bodyStore s Hwf), wf_body_in_world.
Qed.

(** The nodes of the scene are the light, the ground and the meshes of the
    balls, and nothing else; likewise for the bodies of the world. *)
Lemma wf_scene_elem (s : GravityScene) (id : nat) :
  wf s →
  id ∈ scene s ↔ id = 0 ∨ id = groundMesh s ∨ ∃ ball, ball ∈ balls s ∧ mesh ball = id.
Proof.
  intros Hwf. rewrite (wf_scene s Hwf), !elem_of_cons, list_elem_of_fmap.
  split; (intros [?|[?|(b & ? & ?)]]; [by left|by right; left|]);
    right; right; by exists b.
Qed.

Lemma wf_bodies_elem (s : GravityScene) (id : nat) :
  wf s →
  id ∈ bodies (world s) ↔ id = groundBody s ∨ ∃ ball, ball ∈ balls s ∧ body ball = id.
Proof.
  intros Hwf. rewrite (wf_bodies s Hwf), !elem_of_cons, list_elem_of_fmap.
  split; (intros [?|(b & ? & ?)]; [by left|]); right; by exists b.
Qed.

Lemma wf_mesh_not_fixture (s : GravityScene) (ball : Ball) :
  wf s → ball ∈ balls s → mesh ball ≠ 0 ∧ mesh ball ≠ groundMesh s.
Proof.
  intros Hwf Hball. pose proof (wf_scene_NoDup s Hwf) as Hnd.
  rewrite (wf_scene s Hwf) in Hnd.
  apply NoDup_cons in Hnd as [H0 [Hg _]%NoDup_cons].
  apply (list_elem_of_fmap_2 mesh) in Hball.
  split; intros Heq; rewrite Heq in Hball.
  - apply H0. by apply list_elem_of_further.
  - by apply Hg.
Qed.

Lemma wf_body_not_ground (s : GravityScene) (ball : Ball) :
  wf s → ball ∈ balls s → body ball ≠ groundBody s.
Proof.
  intros Hwf Hball. pose proof (wf_bodies_NoDup s Hwf) as Hnd.
  rewrite (wf_bodies s Hwf) in Hnd.
  apply NoDup_cons in Hnd as [Hg _].
  apply (list_elem_of_fmap_2 body) in Hball.
  intros Heq. rewrite Heq in Hball. by apply Hg.
Qed.

(** On a ball of a well-formed state the [done] conjunct of the test is
    true, and the bound is 2. *)
Lemma resting_wf (s : GravityScene) (ball : Ball) :
  wf s → ball ∈ balls s →
  resting s ball
  = (Vec3_length (velocity (bodyStore s !!! body ball)) <? 0.1)%float
    && (vy (body_position (bodyStore s !!! body ball)) <=? 2)%float.
Proof.
  intros Hwf Hball. unfold resting.
  by rewrite (wf_done s Hwf ball Hball), (wf_ballRadius s Hwf).
Qed.

(** ** Handles are never reused *)

Lemma later_dispatch (e : Event) (s s' : GravityScene) :
  wf s → dispatch e s = Normal s' → later s s'.
Proof.
  intros Hwf. destruct e as [|value|w h|delta]; simpl.
  - intros [= <-]. unfold later, addBall, new_object, new_body, world_addBody.
    simpl. destruct (decide _); simpl.
    all: split; [lia|]; split; [lia|].
    all: intros ball [Hb | ->%list_elem_of_singleton]%elem_of_app; auto.
  - unfold gravityInput_change. destruct (has_gravityInput _); intros [= <-].
    + destruct (negb _); simpl; by repeat split; auto.
    + by repeat split; auto.
  - intros [= <-]. by repeat split; auto.
  - intros Hanim.
    destruct (animate_spec delta s Hwf) as (s1 & _ & Heq & _ & Hlf & Hballs & _).
    rewrite Heq in Hanim. injection Hanim as <-.
    unfold later. simpl.
    rewrite (lf_object3DId _ _ Hlf), (lf_bodyId _ _ Hlf). simpl.
    split; [done|]. split; [done|].
    intros ball Hball. left. rewrite Hballs in Hball.
    by apply list_elem_of_filter in Hball as [_ ?].
Qed.

Lemma later_run (s s' : GravityScene) (es : list Event) :
  wf s → run s es s' → later s s'.
Proof.
  intros Hwf Hrun. induction Hrun as [s|s e s1 es s2 Hd Hrun IH].
  - by repeat split; auto.
  - destruct (later_dispatch e s s1 Hwf Hd) as (Ho1 & Hb1 & Hold1).
    destruct (IH (wf_dispatch e s s1 Hwf Hd)) as (Ho2 & Hb2 & Hold2).
    split; [lia|]. split; [lia|].
    intros ball [Hin|[??]]%Hold2; [|right; lia].
    apply Hold1 in Hin. done.
Qed.

Lemma run_play (s s' : GravityScene) (es : list Event) :
  run s es s' ↔ play es s = Normal s'.
Proof.
  split.
  - induction 1 as [s|s e s1 es s2 Hd _ IH]; simpl; [done|].
    by rewrite Hd.
  - revert s. induction es as [|e es IH]; simpl; intros s Hplay.
    + injection Hplay as <-. constructor.
    + destruct (dispatch e s) as [s1|] eqn:Hd; [|done].
      econstructor; [done|]. by apply IH.
Qed.

Lemma reachable_play (c : Container) (g : float) (es : list Event)
    (s : GravityScene) :
  play es (constructor c g) = Normal s → reachable s.
Proof.
  intros Hplay%run_play. eapply reachable_run; [apply reachable_new|done].
Qed.

Lemma wf_paired (s : GravityScene) : wf s → paired s.
Proof. intros Hwf. repeat split; apply Hwf. Qed.

(** On a well-formed state no callback throws. *)
Lemma dispatch_total (e : Event) (s : GravityScene) :
  wf s → ∃ s', dispatch e s = Normal s'.
Proof.
  intros Hwf. destruct e as [|value|w h|delta]; simpl; [by eexists| |by eexists|].
  - destruct (has_gravityInput _); by eexists.
  - destruct (animate_spec delta s Hwf) as (s1 & _ & Heq & _). by eexists.
Qed.

Lemma world_step_lookup (dt delta : float) (s : GravityScene) (k id : nat) :
  NoDup (bodies (world s)) → bodies (world s) !! k = Some id →
  bodyStore (world_step dt delta s) !! id
  = Some (step_body (world s) dt delta
            ((λ id, bodyStore s !!! id) <$> bodies (world s)) k
            (bodyStore s !!! id)).
Proof.
  intros Hnd Hk. unfold world_step. simpl.
  apply foldr_insert_lookup; [by rewrite fst_imap_pair|].
  apply (list_elem_of_lookup_2 _ k). by rewrite list_lookup_imap, Hk.
Qed.

(** ** The loop and the nodes, for every contents of the collection *)




(** * The claims *)

(** C1. In a tick, counted from the physics step of that tick: a ball of the
    collection whose body has a velocity of length below 0.1 and a height of
    at most 2 (radius 1 plus ground height 1) is gone from the collection
    when the tick ends, its mesh is gone from the scene and its body from
    the world; any other ball of the collection is still there, with its mesh
    in the scene and its body in the world. *)
Theorem settled_ball_removed (s : GravityScene) (delta : float) :
  reachable s →
  ∃ s',
    animate delta s = Normal s' ∧
    ∀ ball, ball ∈ balls s →
      let b := bodyStore (world_step (1 / 60) delta s) !!! body ball in
      if (Vec3_length (velocity b) <? 0.1)%float
         && (vy (body_position b) <=? 2)%float
      then ((ball ∉ balls s') ∧ (mesh ball ∉ scene s')
            ∧ (body ball ∉ bodies (world s')))
      else (ball ∈ balls s' ∧ mesh ball ∈ scene s'
            ∧ body ball ∈ bodies (world s')).
Proof.
  intros Hwf%reachable_wf.
  destruct (animate_spec delta s Hwf) as (s1 & _ & Heq & Hwf1 & Hlf & Hballs & _).
  exists (render s1). split; [done|].
  set (s0 := world_step (1 / 60) delta s) in *.
  intros ball Hball. cbv zeta.
  change (balls (render s1)) with (balls s1).
  change (scene (render s1)) with (scene s1).
  change (world (render s1)) with (world s1).
  assert (Hwf0 : wf s0) by by apply wf_world_step.
  rewrite <-(resting_wf s0 ball Hwf0 Hball).
  destruct (resting s0 ball) eqn:Hrest.
  - assert (Hgone : ball ∉ balls s1).
    { rewrite Hballs. intros [? _]%list_elem_of_filter. congruence. }
    assert (Hother : ∀ b', b' ∈ balls s1 → b' ≠ ball) by (by intros b' ? ->).
    split; [done|]. split.
    + destruct (wf_mesh_not_fixture s0 ball Hwf0 Hball) as [Hn0 Hng].
      intros [Hid|[Hid|(b' & Hb' & Hm)]]%(wf_scene_elem s1 _ Hwf1).
      * done.
      * by rewrite (lf_groundMesh _ _ Hlf) in Hid.
      * apply (Hother b' Hb').
        rewrite Hballs in Hb'. apply list_elem_of_filter in Hb' as [_ Hb'].
        by apply (NoDup_fmap_elem_inj mesh (balls s0) _ _ (wf_mesh_NoDup s0 Hwf0)).
    + intros [Hid|(b' & Hb' & Hm)]%(wf_bodies_elem s1 _ Hwf1).
      * rewrite (lf_groundBody _ _ Hlf) in Hid.
        by apply (wf_body_not_ground s0 ball Hwf0 Hball).
      * apply (Hother b' Hb').
        rewrite Hballs in Hb'. apply list_elem_of_filter in Hb' as [_ Hb'].
        by apply (NoDup_fmap_elem_inj body (balls s0) _ _ (wf_body_NoDup s0 Hwf0)).
  - assert (Hstays : ball ∈ balls s1).
    { rewrite Hballs. by apply list_elem_of_filter. }
    split; [done|].
    split; [by apply wf_mesh_in_scene|by apply wf_body_in_world].
Qed.

(** C2. Between callbacks the children of the scene are exactly the light,
    the ground and one mesh per ball of the collection, the bodies of the
    world are exactly the ground and one body per ball, and no handle occurs
    twice ([paired]): every ball has exactly one node in the scene and one
    body in the world, and neither subsystem holds a node or body without a
    ball.  This holds after the constructor, and every callback (click,
    gravity change, resize, animation frame) completes and keeps it.  Removal
    is final: once a ball has left the collection, no later ball carries its
    mesh or its body, and neither is ever again in the scene or in the
    world. *)
Theorem handles_paired (s : GravityScene) :
  reachable s →
  paired s ∧
  (∀ e, ∃ s', dispatch e s = Normal s' ∧ paired s') ∧
  ∀ ball es s1 es' s2,
    ball ∈ balls s → run s es s1 → ball ∉ balls s1 → run s1 es' s2 →
    (∀ ball', ball' ∈ balls s2 →
       mesh ball' ≠ mesh ball ∧ body ball' ≠ body ball) ∧
    (mesh ball ∉ scene s2) ∧ (body ball ∉ bodies (world s2)).
Proof.
  intros Hwf%reachable_wf.
  split; [by apply wf_paired|]. split.
  { intros e. destruct (dispatch_total e s Hwf) as [s' Hd].
    exists s'. split; [done|]. apply wf_paired. by eapply wf_dispatch. }
  intros ball es s1 es' s2 Hball Hrun1 Hgone Hrun2.
  pose proof (wf_run s s1 es Hwf Hrun1) as Hwf1.
  pose proof (wf_run s1 s2 es' Hwf1 Hrun2) as Hwf2.
  destruct (wf_handles_allocated s ball Hwf Hball) as [Hm Hb].
  destruct (later_run s s1 es Hwf Hrun1) as (Ho1 & Hb1 & Hold1).
  destruct (later_run s1 s2 es' Hwf1 Hrun2) as (Ho2 & Hb2 & Hold2).
  assert (Hfinal : ∀ ball', ball' ∈ balls s2 →
            mesh ball' ≠ mesh ball ∧ body ball' ≠ body ball).
  { intros ball' [Hin1|[??]]%Hold2; [|lia].
    destruct (Hold1 _ Hin1) as [Hin|[??]]; [|lia].
    split; intros Heq; apply Hgone.
    - by rewrite <-(NoDup_fmap_elem_inj mesh (balls s) ball' ball
                      (wf_mesh_NoDup s Hwf)).
    - by rewrite <-(NoDup_fmap_elem_inj body (balls s) ball' ball
                      (wf_body_NoDup s Hwf)). }
  split; [done|].
  destruct (wf_mesh_not_fixture s ball Hwf Hball) as [Hn0 Hng].
  pose proof (wf_body_not_ground s ball Hwf Hball) as Hnb.
  split.
  - intros [Hid|[Hid|(b' & Hb' & Hmb)]]%(wf_scene_elem s2 _ Hwf2).
    + done.
    + rewrite (wf_groundMesh s2 Hwf2) in Hid.
      by rewrite (wf_groundMesh s Hwf) in Hng.
    + by destruct (Hfinal b' Hb').
  - intros [Hid|(b' & Hb' & Hmb)]%(wf_bodies_elem s2 _ Hwf2).
    + rewrite (wf_groundBody s2 Hwf2) in Hid.
      by rewrite (wf_groundBody s Hwf) in Hnb.
    + by destruct (Hfinal b' Hb').
Qed.

(** C3. When the text of the gravity input parses to a number [v] (anything
    but [NaN]), the change listener stores [v] as [gravityValue] and sets the
    gravity vector of the world to [(0, -v, 0)], so that its downward
    component is [v].  Nothing else changes at that moment; the next physics
    step integrates every body of the world under the new vector. *)
Theorem gravity_change_numeric (value : string) (v : float) (s : GravityScene) :
  parseFloat value = v → is_nan v = false →
  let s' := gravityInput_change value s in
  gravityValue s' = v ∧
  gravity (world s') = mkVec3 0 (- v) 0 ∧
  (- vy (gravity (world s')))%float = v ∧
  world s' = world_set_gravity (mkVec3 0 (- v) 0) (world s) ∧
  s' = set_world (world s') (set_gravityValue v s) ∧
  ∀ dt delta k id,
    NoDup (bodies (world s)) → bodies (world s) !! k = Some id →
    bodyStore (world_step dt delta s') !! id
    = Some (step_body (world_set_gravity (mkVec3 0 (- v) 0) (world s)) dt delta
              ((λ id, bodyStore s !!! id) <$> bodies (world s)) k
              (bodyStore s !!! id)).
Proof.
  intros Hv Hnan.
  assert (Heq : gravityInput_change value s
                = set_world (world_set_gravity (mkVec3 0 (- v) 0) (world s))
                            (set_gravityValue v s)).
  { unfold gravityInput_change. by rewrite Hv, Hnan. }
  cbv zeta. rewrite Heq. do 2 (split; [done|]).
  split; [apply float_opp_opp|]. do 2 (split; [done|]).
  intros dt delta k id Hnd Hk.
  exact (world_step_lookup dt delta
           (set_world (world_set_gravity (mkVec3 0 (- v) 0) (world s))
                      (set_gravityValue v s)) k id Hnd Hk).
Qed.

(** C4. When the text of the gravity input does not parse to a number
    ([parseFloat] yields [NaN]), the change listener leaves the whole state as
    it was, gravity vector and [gravityValue] included, and the callback
    completes normally. *)
Theorem gravity_change_not_numeric (value : string) (s : GravityScene) :
  is_nan (parseFloat value) = true →
  gravityInput_change value s = s ∧
  gravity (world (gravityInput_change value s)) = gravity (world s) ∧
  gravityValue (gravityInput_change value s) = gravityValue s ∧
  dispatch (Change value) s = Normal s.
Proof.
  intros Hnan.
  assert (Heq : gravityInput_change value s = s).
  { unfold gravityInput_change. by rewrite Hnan. }
  rewrite Heq. repeat split. simpl. rewrite Heq. by destruct (has_gravityInput _).
Qed.

(** C5. In every state of a scene controller [addBall] completes normally
    and appends exactly one ball, unflagged, to the collection.  Its mesh is
    a new node (a handle not in use before), pushed onto the scene; its body
    is a new body, pushed onto the world: a sphere of radius 1 and mass 5 at
    [(0, 8, 0)], at rest, with linear damping 0.31 and the ball material of
    the scene.  The balls that were there, their nodes and their bodies are
    untouched. *)
Theorem addBall_spawns (s : GravityScene) :
  reachable s →
  let ballMesh := object3DId s in
  let ballBody := bodyId s in
  let s' := addBall s in
  dispatch Click s = Normal s' ∧
  balls s' = balls s ++ [mkBall ballMesh ballBody false] ∧
  length (balls s') = S (length (balls s)) ∧
  objects s !! ballMesh = None ∧ (ballMesh ∉ scene s) ∧
  scene s' = scene s ++ [ballMesh] ∧
  objects s' !! ballMesh
  = Some (mkObject3D (Mesh (SphereGeometry 1 32 32) 0xff4444)
                     zero3 identityQ true false) ∧
  bodyStore s !! ballBody = None ∧ (ballBody ∉ bodies (world s)) ∧
  bodies (world s') = bodies (world s) ++ [ballBody] ∧
  bodyStore s' !! ballBody
  = Some (mkBody 5 (Sphere 1) (ballMaterial s) (mkVec3 0 8 0) identityQ
                 zero3 zero3 0.31) ∧
  (∀ id, id ≠ ballMesh → objects s' !! id = objects s !! id) ∧
  (∀ id, id ≠ ballBody → bodyStore s' !! id = bodyStore s !! id).
Proof.
  intros Hwf%reachable_wf.
  assert (Hm : objects s !! object3DId s = None).
  { apply eq_None_not_Some. intros Hsome%(wf_object3DId s Hwf). lia. }
  assert (Hb : bodyStore s !! bodyId s = None).
  { apply eq_None_not_Some. intros Hsome%(wf_bodyId s Hwf). lia. }
  assert (Hms : object3DId s ∉ scene s).
  { intros Hin%(wf_objects s Hwf). rewrite Hm in Hin. by apply is_Some_None in Hin. }
  assert (Hbs : bodyId s ∉ bodies (world s)).
  { intros Hin%(wf_bodyStore s Hwf). rewrite Hb in Hin. by apply is_Some_None in Hin. }
  cbv zeta. split; [done|].
  unfold addBall, new_object, new_body, world_addBody. simpl.
  rewrite decide_False by done. simpl. rewrite (wf_ballRadius s Hwf).
  split; [done|].
  split; [rewrite length_app; simpl; lia|].
  split; [done|]. split; [done|]. split; [done|].
  split; [by rewrite lookup_insert_eq|].
  split; [done|]. split; [done|]. split; [done|].
  split; [by rewrite lookup_insert_eq|].
  split; intros id Hid; by rewrite lookup_insert_ne.
Qed.


(** C7. A tick completes normally, and when it ends the node of every ball
    that is still in the collection has the position and the orientation of
    the ball's body.  The copy is made in each turn of the loop before the
    removal test: the nodes of the balls that the tick removed show their
    bodies' transforms as well.  The frame is drawn afterwards: the one frame
    the tick appends to the renderer's output shows the children of the scene
    as they are at the end of the tick, each remaining ball's node at its
    body's transform. *)
Theorem animate_syncs (s : GravityScene) (delta : float) :
  reachable s →
  ∃ s',
    animate delta s = Normal s' ∧
    (∀ ball, ball ∈ balls s' → synced s' ball) ∧
    (∀ ball, ball ∈ balls s → synced s' ball) ∧
    bodyStore s' = bodyStore (world_step (1 / 60) delta s) ∧
    ∃ frame,
      frames (renderer s') = frames (renderer s) ++ [frame] ∧
      drawn frame = (λ id, (id, objects s' !!! id)) <$> scene s' ∧
      ∀ ball, ball ∈ balls s' →
        ∃ o, (mesh ball, o) ∈ drawn frame ∧
             position o = body_position (bodyStore s' !!! body ball) ∧
             quaternion o = body_quaternion (bodyStore s' !!! body ball).
Proof.
  intros Hwf%reachable_wf.
  destruct (animate_spec delta s Hwf)
    as (s1 & _ & Heq & Hwf1 & Hlf & Hballs & Hsync).
  assert (Hsub : ∀ ball, ball ∈ balls s1 → ball ∈ balls s).
  { intros ball. rewrite Hballs. by intros [_ ?]%list_elem_of_filter. }
  exists (render s1). split; [done|].
  split; [intros ball Hball; apply Hsync; by apply Hsub|].
  split; [done|].
  split; [apply (lf_bodyStore _ _ Hlf)|].
  eexists. split.
  { simpl. by rewrite (lf_renderer _ _ Hlf). }
  split; [done|].
  intros ball Hball. exists (objects s1 !!! mesh ball). split.
  - simpl. apply (list_elem_of_fmap_2 (λ id, (id, objects s1 !!! id))).
    by apply wf_mesh_in_scene.
  - apply Hsync. by apply Hsub.
Qed.

(** C8. When the container has the client size [(w, h)], the resize listener
    sets the aspect of the camera to [w / h] (and recomputes the projection
    matrix from it) and the size of the renderer to [(w, h)]; the other
    parameters of the camera, the frames drawn so far, the world, the balls,
    the gravity, the ground, the scene and the stored objects are as
    before. *)
Theorem resize_sets_aspect (w h : float) (s : GravityScene) :
  let s' := onWindowResize
              (set_container (mkContainer w h (has_gravityInput (container s))) s) in
  dispatch (Resize w h) s = Normal s' ∧
  aspect (camera s') = (w / h)%float ∧
  width (renderer s') = w ∧ height (renderer s') = h ∧
  camera s' = updateProjectionMatrix (camera_set_aspect (w / h) (camera s)) ∧
  renderer s' = setSize w h (renderer s) ∧
  frames (renderer s') = frames (renderer s) ∧
  world s' = world s ∧ balls s' = balls s ∧
  gravityValue s' = gravityValue s ∧
  groundMesh s' = groundMesh s ∧ groundBody s' = groundBody s ∧
  scene s' = scene s ∧ objects s' = objects s ∧ bodyStore s' = bodyStore s ∧
  ballRadius s' = ballRadius s ∧
  groundMaterial s' = groundMaterial s ∧ ballMaterial s' = ballMaterial s ∧
  object3DId s' = object3DId s ∧ bodyId s' = bodyId s.
Proof. simpl. by repeat split. Qed.


(** C10. Between callbacks the gravity vector of the world is
    [(0, -gravityValue, 0)]: its x and z components are 0 after the
    constructor and after every update, which writes all three components. *)
Theorem gravity_points_down (s : GravityScene) :
  reachable s →
  gravity (world s) = mkVec3 0 (- gravityValue s) 0 ∧
  vx (gravity (world s)) = 0%float ∧
  vz (gravity (world s)) = 0%float.
Proof.
  intros Hwf%reachable_wf. rewrite (wf_gravity s Hwf). done.
Qed.

(** * Further properties of the class *)

(** ** The loop started anywhere *)

Lemma animate_loop_out_of_range (n : nat) (s : GravityScene) :
  length (balls s) < n → animate_loop n s = Throw TypeError.
Proof.
  destruct n as [|i]; [lia|]. intros Hlen. simpl.
  unfold animate_body. by rewrite lookup_ge_None_2 by lia.
Qed.

(** X1. The loop of [animate] started at index [n - 1] completes exactly
    when [n] is at most the length of the collection; started further out it
    throws a [TypeError] at its first turn.  The start index
    [this.balls.length - 1] of the source is the largest safe one. *)
Theorem animate_loop_completes_iff (n : nat) (s : GravityScene) :
  ((∃ s', animate_loop n s = Normal s') ↔ n ≤ length (balls s)) ∧
  (animate_loop n s = Throw TypeError ↔ length (balls s) < n).
Proof.
  destruct (decide (n ≤ length (balls s))) as [Hle|Hgt].
  - destruct (animate_loop_trace_spec n s Hle) as (s' & _ & Hloop & _).
    split; (split; [|intros; try lia]).
    + done.
    + by exists s'.
    + rewrite Hloop. done.
  - pose proof (animate_loop_out_of_range n s ltac:(lia)) as Hthrow.
    split; (split; [|intros; try lia]).
    + intros [s' Hs']. by rewrite Hthrow in Hs'.
    + lia.
    + done.
Qed.

(** ** What a callback does to the frames, the collection and the gravity *)

Lemma animate_inv (delta : float) (s s' : GravityScene) :
  animate delta s = Normal s' →
  ∃ s1, animate_loop (length (balls s)) (world_step (1 / 60) delta s)
        = Normal s1 ∧ s' = render s1.
Proof.
  unfold animate. intros Hanim.
  destruct (animate_loop _ _) as [s1|] eqn:Hloop; [|done].
  exists s1. split; [done|]. simpl in Hanim. by injection Hanim as <-.
Qed.

Lemma balls_addBall (s : GravityScene) :
  balls (addBall s) = balls s ++ [mkBall (object3DId s) (bodyId s) false].
Proof.
  unfold addBall, new_object, new_body, world_addBody. simpl.
  by destruct (decide _).
Qed.

Lemma dispatch_frames (e : Event) (s s' : GravityScene) :
  dispatch e s = Normal s' →
  ∃ fs, frames (renderer s') = frames (renderer s) ++ fs
        ∧ length fs = ticks [e].
Proof.
  destruct e as [|value|w h|delta]; simpl.
  - intros [= <-]. exists []. split; [|done]. rewrite app_nil_r.
    unfold addBall, new_object, new_body, world_addBody. simpl.
    by destruct (decide _).
  - intros Hd. exists []. split; [|done]. rewrite app_nil_r.
    unfold gravityInput_change in Hd.
    destruct (has_gravityInput _); [destruct (negb _)|]; by injection Hd as <-.
  - intros [= <-]. exists []. by rewrite app_nil_r.
  - intros (s1 & Hloop & ->)%animate_inv. eexists. split.
    + simpl. rewrite (lf_renderer _ _ (loop_frame_animate_loop _ _ _ Hloop)).
      reflexivity.
    + done.
Qed.

Lemma dispatch_balls (e : Event) (s s' : GravityScene) :
  dispatch e s = Normal s' →
  length (balls s') ≤ length (balls s) + clicks [e] ∧
  (ticks [e] = 0 → length (balls s') = length (balls s) + clicks [e]).
Proof.
  destruct e as [|value|w h|delta]; simpl.
  - intros [= <-]. rewrite balls_addBall, length_app. simpl. lia.
  - intros Hd. unfold gravityInput_change in Hd.
    destruct (has_gravityInput _); [destruct (negb _)|];
      injection Hd as <-; simpl; lia.
  - intros [= <-]. simpl. lia.
  - intros (s1 & Hloop & ->)%animate_inv. split; [|done]. simpl.
    destruct (animate_loop_trace_spec (length (balls s))
                (world_step (1 / 60) delta s))
      as (s2 & _ & Hloop2 & Hballs & _); [done|].
    rewrite Hloop in Hloop2. injection Hloop2 as <-.
    simpl in Hballs. rewrite firstn_all, drop_all, app_nil_r in Hballs.
    rewrite Hballs. etrans; [apply length_filter|lia].
Qed.

Lemma dispatch_gravityValue (e : Event) (s s' : GravityScene) :
  dispatch e s = Normal s' →
  has_gravityInput (container s') = has_gravityInput (container s) ∧
  gravityValue s'
  = if has_gravityInput (container s) then gravity_after (gravityValue s) [e]
    else gravityValue s.
Proof.
  destruct e as [|value|w h|delta]; simpl.
  - intros [= <-]. unfold addBall, new_object, new_body, world_addBody. simpl.
    destruct (decide _); simpl; by destruct (has_gravityInput _).
  - unfold gravityInput_change.
    destruct (has_gravityInput _) eqn:Hin; intros [= <-]; [|done].
    destruct (is_nan _); simpl; by rewrite Hin.
  - intros [= <-]. simpl. by destruct (has_gravityInput _).
  - intros (s1 & Hloop & ->)%animate_inv. simpl.
    pose proof (loop_frame_animate_loop _ _ _ Hloop) as Hlf.
    rewrite (lf_container _ _ Hlf), (lf_gravityValue _ _ Hlf). simpl.
    by destruct (has_gravityInput _).
Qed.

Lemma clicks_app (es es' : list Event) :
  clicks (es ++ es') = clicks es + clicks es'.
Proof. induction es as [|[] es IH]; simpl; lia. Qed.

Lemma ticks_app (es es' : list Event) :
  ticks (es ++ es') = ticks es + ticks es'.
Proof. induction es as [|[] es IH]; simpl; lia. Qed.

Lemma clicks_cons (e : Event) (es : list Event) :
  clicks (e :: es) = clicks [e] + clicks es.
Proof. apply (clicks_app [e] es). Qed.

Lemma ticks_cons (e : Event) (es : list Event) :
  ticks (e :: es) = ticks [e] + ticks es.
Proof. apply (ticks_app [e] es). Qed.

Lemma gravity_after_cons (g : float) (e : Event) (es : list Event) :
  gravity_after g (e :: es) = gravity_after (gravity_after g [e]) es.
Proof. by destruct e. Qed.

(** X2. Only animation frames draw: along any run of events the renderer's
    output grows by exactly one frame per animation frame, and no frame
    already drawn is changed or dropped. *)
Theorem run_frames (s s' : GravityScene) (es : list Event) :
  run s es s' →
  ∃ fs, frames (renderer s') = frames (renderer s) ++ fs
        ∧ length fs = ticks es.
Proof.
  induction 1 as [s|s e s1 es s2 Hd _ (fs2 & Hf2 & Hl2)].
  - exists []. by rewrite app_nil_r.
  - destruct (dispatch_frames e s s1 Hd) as (fs1 & Hf1 & Hl1).
    exists (fs1 ++ fs2). split.
    + by rewrite Hf2, Hf1, <-(assoc_L (++)).
    + rewrite length_app, Hl1, Hl2. by rewrite (ticks_cons e es).
Qed.

(** X3. Balls enter the collection only by clicks, one per click, and leave
    it only in animation frames: along any run the collection has at most
    its starting length plus the number of clicks, and exactly that many
    balls when the run has no animation frame. *)
Theorem run_balls (s s' : GravityScene) (es : list Event) :
  run s es s' →
  length (balls s') ≤ length (balls s) + clicks es ∧
  (ticks es = 0 → length (balls s') = length (balls s) + clicks es).
Proof.
  induction 1 as [s|s e s1 es s2 Hd _ [IH1 IH2]]; [simpl; lia|].
  destruct (dispatch_balls e s s1 Hd) as [H1 H2].
  rewrite (clicks_cons e es), (ticks_cons e es). lia.
Qed.

(** X4. The gravity value along a run: when the container has a gravity
    input, it is the value of the last change whose text parsed to a number
    (the starting value if there was none); clicks, resizes, animation frames
    and changes that do not parse leave it alone.  When the container has no
    gravity input, no event changes it.  In both cases the gravity vector of
    the world is [(0, -gravityValue, 0)] at the end of a run from a reachable
    state. *)
Theorem run_gravity (s s' : GravityScene) (es : list Event) :
  reachable s → run s es s' →
  gravityValue s'
  = (if has_gravityInput (container s) then gravity_after (gravityValue s) es
     else gravityValue s) ∧
  gravity (world s') = mkVec3 0 (- gravityValue s') 0.
Proof.
  intros Hreach Hrun. split.
  - clear Hreach. induction Hrun as [s|s e s1 es s2 Hd _ IH].
    + by destruct (has_gravityInput _).
    + destruct (dispatch_gravityValue e s s1 Hd) as [Hin Hg].
      rewrite IH, Hin, Hg, (gravity_after_cons _ e es).
      by destruct (has_gravityInput (container s)).
  - apply wf_gravity, reachable_wf. by eapply reachable_run.
Qed.

(** ** The view follows the container *)

Lemma fits_constructor (c : Container) (g : float) :
  fits_container (constructor c g).
Proof. by repeat split. Qed.

Lemma fits_dispatch (e : Event) (s s' : GravityScene) :
  fits_container s → dispatch e s = Normal s' → fits_container s'.
Proof.
  intros (Hcam & Hw & Hh). destruct e as [|value|w h|delta]; simpl.
  - intros [= <-]. unfold addBall, new_object, new_body, world_addBody. simpl.
    by destruct (decide _).
  - unfold gravityInput_change.
    destruct (has_gravityInput _); [destruct (negb _)|]; by intros [= <-].
  - intros [= <-]. unfold fits_container. simpl. by rewrite Hcam.
  - intros (s1 & Hloop & ->)%animate_inv.
    pose proof (loop_frame_animate_loop _ _ _ Hloop) as Hlf.
    unfold fits_container. simpl.
    by rewrite (lf_camera _ _ Hlf), (lf_container _ _ Hlf),
               (lf_renderer _ _ Hlf).
Qed.

Lemma reachable_fits (s : GravityScene) : reachable s → fits_container s.
Proof.
  induction 1 as [c g|s e s' _ IH Hd]; [apply fits_constructor|].
  by eapply fits_dispatch.
Qed.

Lemma onWindowResize_fits (s : GravityScene) :
  fits_container s → onWindowResize s = s.
Proof.
  destruct s as [c g sc cam [aa w h fs] gm wo gmat bmat gb r bs os st oid bid].
  intros (Hcam & Hw & Hh). simpl in *. subst.
  unfold onWindowResize. simpl. reflexivity.
Qed.

(** X5. Between callbacks the camera and the renderer fit the container: the
    camera is the one the constructor makes for the container's client size
    (field of view 60, aspect width / height, near 0.1, far 1000, at
    [(0, 5, 10)], with the projection matrix of these parameters) and the
    renderer has the container's client size.  Hence a resize that finds the
    client size unchanged changes nothing.  The same holds of the call of
    [onWindowResize] that closes the constructor: the new scene controller
    is the result of that call on the state the constructor has built by
    then ([constructor_fields]), and the call leaves that state as it is,
    the camera and the renderer having been made for the container's size
    already. *)
Theorem view_fits_container (s : GravityScene) :
  reachable s →
  fits_container s ∧
  onWindowResize s = s ∧
  dispatch (Resize (clientWidth (container s)) (clientHeight (container s))) s
  = Normal s ∧
  ∀ c g,
    constructor c g = onWindowResize (constructor_fields c g) ∧
    onWindowResize (constructor_fields c g) = constructor_fields c g ∧
    fits_container (constructor_fields c g).
Proof.
  intros Hfit%reachable_fits.
  pose proof (onWindowResize_fits s Hfit) as Hid.
  split; [done|]. split; [done|]. split.
  - simpl. f_equal.
    replace (set_container _ s) with s; [done|].
    by destruct s as [[] ?].
  - intros c g. split; [reflexivity|].
    assert (Hfields : fits_container (constructor_fields c g))
      by by repeat split.
    split; [by apply onWindowResize_fits|done].
Qed.

(** ** A tick, list by list *)

Lemma filter_all {A} (P : A → Prop) `{∀ x, Decision (P x)} (l : list A) :
  (∀ x, x ∈ l → P x) → filter P l = l.
Proof.
  induction l as [|x l IH]; intros Hall; [done|].
  rewrite filter_cons_True by (apply Hall; left).
  f_equal. apply IH. intros y Hy. apply Hall. by right.
Qed.

Lemma filter_none {A} (P : A → Prop) `{∀ x, Decision (P x)} (l : list A) :
  (∀ x, x ∈ l → ¬ P x) → filter P l = [].
Proof.
  induction l as [|x l IH]; intros Hnone; [done|].
  rewrite filter_cons_False by (apply Hnone; left).
  apply IH. intros y Hy. apply Hnone. by right.
Qed.

Lemma animate_lists (delta : float) (s : GravityScene) :
  wf s →
  ∃ s',
    animate delta s = Normal s' ∧
    balls s' = filter (λ ball,
                 resting (world_step (1 / 60) delta s) ball = false) (balls s) ∧
    scene s' = 0 :: groundMesh s :: (mesh <$> balls s') ∧
    bodies (world s') = groundBody s :: (body <$> balls s').
Proof.
  intros Hwf.
  destruct (animate_spec delta s Hwf) as (s1 & _ & Heq & Hwf1 & Hlf & Hballs & _).
  exists (render s1). split; [done|]. split; [done|]. simpl.
  rewrite (wf_scene s1 Hwf1), (wf_bodies s1 Hwf1).
  by rewrite (lf_groundMesh _ _ Hlf), (lf_groundBody _ _ Hlf).
Qed.

(** X6. A tick keeps the order of what it keeps: the collection after the
    tick is the collection before it without the balls that rest after the
    physics step, in the same order, and the children of the scene and the
    bodies of the world are again the light and the ground followed by the
    meshes and bodies of these balls in that order.  When no ball rests, the
    collection, the children of the scene and the bodies of the world are
    the same lists as before. *)
Theorem animate_keeps_order (s : GravityScene) (delta : float) :
  reachable s →
  ∃ s',
    animate delta s = Normal s' ∧
    balls s' = filter (λ ball,
                 resting (world_step (1 / 60) delta s) ball = false) (balls s) ∧
    scene s' = 0 :: groundMesh s :: (mesh <$> balls s') ∧
    bodies (world s') = groundBody s :: (body <$> balls s') ∧
    ((∀ ball, ball ∈ balls s →
        resting (world_step (1 / 60) delta s) ball = false) →
     balls s' = balls s ∧ scene s' = scene s ∧
     bodies (world s') = bodies (world s)).
Proof.
  intros Hwf%reachable_wf.
  destruct (animate_lists delta s Hwf) as (s' & Heq & Hballs & Hscene & Hbodies).
  exists s'. do 4 (split; [done|]).
  intros Hnone. rewrite (filter_all _ _ Hnone) in Hballs.
  rewrite Hscene, Hbodies, Hballs, (wf_scene s Hwf), (wf_bodies s Hwf). done.
Qed.

(** X7. When every ball of the collection rests after the physics step of a
    tick (velocity of length below 0.1 and height at most 2), the tick
    empties the collection and leaves only the light and the ground in the
    scene and only the ground in the world. *)
Theorem animate_all_settled (s : GravityScene) (delta : float) :
  reachable s →
  (∀ ball, ball ∈ balls s →
     let b := bodyStore (world_step (1 / 60) delta s) !!! body ball in
     (Vec3_length (velocity b) <? 0.1)%float
     && (vy (body_position b) <=? 2)%float = true) →
  ∃ s',
    animate delta s = Normal s' ∧
    balls s' = [] ∧ scene s' = [0; 1] ∧ bodies (world s') = [0].
Proof.
  intros Hwf%reachable_wf Hall.
  destruct (animate_lists delta s Hwf) as (s' & Heq & Hballs & Hscene & Hbodies).
  exists s'. split; [done|].
  rewrite filter_none in Hballs.
  - rewrite Hscene, Hbodies, Hballs, (wf_groundMesh s Hwf), (wf_groundBody s Hwf).
    done.
  - intros ball Hball.
    rewrite (resting_wf (world_step (1 / 60) delta s) ball
               (wf_world_step _ _ s Hwf) Hball).
    specialize (Hall ball Hball). cbv zeta in Hall. by rewrite Hall.
Qed.

(** ** What is not a ball of the collection is left alone *)

Lemma foldr_insert_lookup_ne (next : list (nat * Body))
    (store : gmap nat Body) (id : nat) :
  id ∉ next.*1 →
  foldr (λ p st, <[p.1 := p.2]> st) store next !! id = store !! id.
Proof.
  induction next as [|[id' b'] next IH]; simpl; intros Hid; [done|].
  apply not_elem_of_cons in Hid as [Hne Hid].
  rewrite lookup_insert_ne by done. by apply IH.
Qed.

Lemma objects_addBall (s : GravityScene) :
  objects (addBall s)
  = <[object3DId s := obj_set_castShadow true
        (new_Object3D (Mesh (SphereGeometry (ballRadius s) 32 32) 0xff4444))]>
      (objects s).
Proof.
  unfold addBall, new_object, new_body, world_addBody. simpl.
  by destruct (decide _).
Qed.

Lemma dispatch_objects_frame (e : Event) (s s' : GravityScene) (id : nat) :
  wf s → dispatch e s = Normal s' →
  id < object3DId s → id ∉ mesh <$> balls s →
  objects s' !! id = objects s !! id.
Proof.
  intros Hwf Hd Hlt Hid. destruct e as [|value|w h|delta]; simpl in Hd.
  - injection Hd as <-. rewrite objects_addBall.
    apply lookup_insert_ne. lia.
  - unfold gravityInput_change in Hd.
    destruct (has_gravityInput _); [destruct (negb _)|]; by injection Hd as <-.
  - by injection Hd as <-.
  - apply animate_inv in Hd as (s1 & Hloop & ->).
    destruct (animate_loop_objects _ _ _ (wf_world_step _ _ s Hwf) Hloop)
      as [_ Hrest].
    simpl. rewrite Hrest; [done|]. simpl. by rewrite firstn_all.
Qed.

Lemma dispatch_bodyStore_frame (e : Event) (s s' : GravityScene) (id : nat) :
  dispatch e s = Normal s' →
  id < bodyId s → id ∉ bodies (world s) →
  bodyStore s' !! id = bodyStore s !! id.
Proof.
  intros Hd Hlt Hid. destruct e as [|value|w h|delta]; simpl in Hd.
  - injection Hd as <-.
    unfold addBall, new_object, new_body, world_addBody. simpl.
    destruct (decide _); simpl; apply lookup_insert_ne; lia.
  - unfold gravityInput_change in Hd.
    destruct (has_gravityInput _); [destruct (negb _)|]; by injection Hd as <-.
  - by injection Hd as <-.
  - apply animate_inv in Hd as (s1 & Hloop & ->). simpl.
    rewrite (lf_bodyStore _ _ (loop_frame_animate_loop _ _ _ Hloop)). simpl.
    apply foldr_insert_lookup_ne. by rewrite fst_imap_pair.
Qed.

Lemma later_not_mesh (s s' : GravityScene) (id : nat) :
  later s s' → id < object3DId s → id ∉ mesh <$> balls s →
  id < object3DId s' ∧ id ∉ mesh <$> balls s'.
Proof.
  intros (Ho & _ & Hold) Hlt Hid. split; [lia|].
  intros (ball & -> & [Hin|[??]]%Hold)%list_elem_of_fmap; [|lia].
  apply Hid. by apply list_elem_of_fmap_2.
Qed.

Lemma later_not_body (s s' : GravityScene) (id : nat) :
  wf s' → later s s' → id < bodyId s → id ∉ bodies (world s) →
  groundBody s' = groundBody s → wf s →
  id < bodyId s' ∧ id ∉ bodies (world s').
Proof.
  intros Hwf' (_ & Hb & Hold) Hlt Hid Hg Hwf. split; [lia|].
  intros [Heq|(ball & [Hin|[??]]%Hold & Hbody)]%(wf_bodies_elem s' _ Hwf');
    [|  |lia].
  - apply Hid, (wf_bodies_elem s _ Hwf). left. congruence.
  - apply Hid, (wf_bodies_elem s _ Hwf). right. by exists ball.
Qed.

(** X8. What is not a ball of the collection is left alone, for good.  A
    stored node that is not the mesh of a ball of the collection (the light,
    the ground mesh, the mesh of a ball that was removed) is not written by
    any later callback, and never becomes the mesh of a ball.  A stored body
    that is not in the world (the body of a ball that was removed) is not
    written by any later callback, physics steps included, and never returns
    to the world. *)
Theorem outsiders_untouched (s s' : GravityScene) (es : list Event) :
  reachable s → run s es s' →
  (∀ id, id < object3DId s → id ∉ mesh <$> balls s →
     objects s' !! id = objects s !! id ∧ id ∉ mesh <$> balls s') ∧
  (∀ id, id < bodyId s → id ∉ bodies (world s) →
     bodyStore s' !! id = bodyStore s !! id ∧ id ∉ bodies (world s')).
Proof.
  intros Hwf%reachable_wf Hrun.
  induction Hrun as [s|s e s1 es s2 Hd _ IH]; [done|].
  pose proof (wf_dispatch e s s1 Hwf Hd) as Hwf1.
  pose proof (later_dispatch e s s1 Hwf Hd) as Hlater.
  destruct (IH Hwf1) as [IHo IHb]. split.
  - intros id Hlt Hid.
    destruct (later_not_mesh s s1 id Hlater Hlt Hid) as [Hlt1 Hid1].
    destruct (IHo id Hlt1 Hid1) as [-> Hfinal]. split; [|done].
    by apply (dispatch_objects_frame e).
  - intros id Hlt Hid.
    destruct (later_not_body s s1 id Hwf1 Hlater Hlt Hid) as [Hlt1 Hid1];
      [|done|].
    { by rewrite (wf_groundBody s1 Hwf1), (wf_groundBody s Hwf). }
    destruct (IHb id Hlt1 Hid1) as [-> Hfinal]. split; [|done].
    by apply (dispatch_bodyStore_frame e).
Qed.

(** ** The light, the ground and the ball meshes *)

Lemma fixture_not_mesh (s : GravityScene) (id : nat) :
  wf s → id = 0 ∨ id = 1 →
  id < object3DId s ∧ id ∉ mesh <$> balls s.
Proof.
  intros Hwf Hid. split.
  - apply (wf_object3DId s Hwf), (wf_objects s Hwf).
    rewrite (wf_scene s Hwf), (wf_groundMesh s Hwf).
    destruct Hid as [-> | ->]; [left|right; left].
  - intros (ball & Hm & Hball)%list_elem_of_fmap.
    destruct (wf_mesh_not_fixture s ball Hwf Hball) as [H0 H1].
    rewrite (wf_groundMesh s Hwf) in H1. destruct Hid; congruence.
Qed.

(** X9. The light and the ground mesh stay as the constructor made them:
    between callbacks the node with handle 0 is the white directional light
    of intensity 1 at [(5, 10, 7)], and the ground mesh is the 20 by 20 plane
    at height 1, turned by [-Math.PI / 2] about the x axis, which receives
    shadows. *)
Theorem fixtures_unchanged (s : GravityScene) :
  reachable s →
  objects s !! 0
  = Some (mkObject3D (DirectionalLight 0xffffff 1) (mkVec3 5 10 7)
                     identityQ false false) ∧
  objects s !! groundMesh s
  = Some (mkObject3D (Mesh (PlaneGeometry 20 20) 0x555555) (mkVec3 0 1 0)
                     (setFromEuler (- Math_PI / 2) 0 0) false true).
Proof.
  induction 1 as [c g|s e s' Hreach [IH0 IH1] Hd]; [done|].
  pose proof (reachable_wf s Hreach) as Hwf.
  pose proof (wf_dispatch e s s' Hwf Hd) as Hwf'.
  rewrite (wf_groundMesh s' Hwf'). rewrite (wf_groundMesh s Hwf) in IH1.
  destruct (fixture_not_mesh s 0 Hwf) as [Hlt0 Hn0]; [by left|].
  destruct (fixture_not_mesh s 1 Hwf) as [Hlt1 Hn1]; [by right|].
  rewrite (dispatch_objects_frame e s s' 0 Hwf Hd Hlt0 Hn0).
  by rewrite (dispatch_objects_frame e s s' 1 Hwf Hd Hlt1 Hn1).
Qed.

(** X10. Syncing changes where a ball is drawn, never what is drawn: between
    callbacks the mesh of every ball of the collection is a stored node that
    is a sphere of radius 1 with 32 by 32 segments in the colour [0xff4444],
    casting a shadow and receiving none. *)
Theorem ball_meshes_keep_look (s : GravityScene) :
  reachable s →
  ∀ ball, ball ∈ balls s →
    ∃ o, objects s !! mesh ball = Some o ∧
         kind o = Mesh (SphereGeometry 1 32 32) 0xff4444 ∧
         castShadow o = true ∧ receiveShadow o = false.
Proof.
  induction 1 as [c g|s e s' Hreach IH Hd].
  { intros ball Hball. by apply elem_of_nil in Hball. }
  pose proof (reachable_wf s Hreach) as Hwf.
  destruct e as [|value|w h|delta]; simpl in Hd.
  - injection Hd as <-. intros ball. rewrite balls_addBall, objects_addBall.
    intros [Hball | ->%list_elem_of_singleton]%elem_of_app.
    + destruct (wf_handles_allocated s ball Hwf Hball) as [Hlt _].
      rewrite lookup_insert_ne by lia. by apply IH.
    + simpl. rewrite lookup_insert_eq, (wf_ballRadius s Hwf). by eexists.
  - unfold gravityInput_change in Hd.
    destruct (has_gravityInput _); [destruct (negb _)|]; by injection Hd as <-.
  - by injection Hd as <-.
  - apply animate_inv in Hd as (s1 & Hloop & ->). simpl.
    set (s0 := world_step (1 / 60) delta s) in *.
    pose proof (wf_world_step (1 / 60) delta s Hwf) as Hwf0.
    destruct (animate_loop_trace_spec (length (balls s0)) s0)
      as (s2 & _ & Hloop2 & Hballs & _); [done|].
    change (balls s0) with (balls s) in Hloop2 at 1.
    rewrite Hloop in Hloop2. injection Hloop2 as <-.
    rewrite firstn_all, drop_all, app_nil_r in Hballs.
    destruct (animate_loop_objects _ _ _ Hwf0 Hloop) as [Hsync _].
    intros ball Hball. rewrite Hballs in Hball.
    apply list_elem_of_filter in Hball as [_ Hball].
    destruct (IH ball Hball) as (o & Ho & Hk & Hc & Hr).
    apply list_elem_of_lookup in Hball as [k Hk'].
    rewrite (Hsync k ball (lookup_lt_Some _ _ _ Hk') Hk').
    change (objects (world_step (1 / 60) delta s)) with (objects s).
    rewrite Ho. simpl.
    eexists. split; [done|]. by simpl.
Qed.

(** * The page *)

(** A page event moves every scene by at most one scene event, and all three
    by an animation frame or none of them. *)
Lemma app_dispatch_scenes (ev : AppEvent) (a a' : App) :
  app_dispatch ev a = Normal a' →
  ∃ oE oM oJ : option Event,
    run (earthScene a) (option_list oE) (earthScene a') ∧
    run (moonScene a) (option_list oM) (moonScene a') ∧
    run (jupiterScene a) (option_list oJ) (jupiterScene a') ∧
    ticks (option_list oE) = ticks (option_list oM) ∧
    ticks (option_list oM) = ticks (option_list oJ).
Proof.
  destruct ev as [p|p value|e m j|dE dM dJ]; unfold app_dispatch.
  - destruct (dispatch Click (scene_of p a)) as [s|] eqn:Hd; [|done].
    intros [= <-]. destruct p;
      [exists (Some Click), None, None
      |exists None, (Some Click), None
      |exists None, None, (Some Click)];
      split_and!;
      first [done | apply run_nil | by eapply run_cons; [exact Hd|apply run_nil]].
  - destruct (dispatch (Change value) (scene_of p a)) as [s|] eqn:Hd; [|done].
    intros [= <-]. destruct p;
      [exists (Some (Change value)), None, None
      |exists None, (Some (Change value)), None
      |exists None, None, (Some (Change value))];
      split_and!;
      first [done | apply run_nil | by eapply run_cons; [exact Hd|apply run_nil]].
  - intros [= <-].
    exists (Some (Resize e.1 e.2)), (Some (Resize m.1 m.2)),
           (Some (Resize j.1 j.2)).
    split_and!; first [done | by eapply run_cons; [|apply run_nil]].
  - unfold animateAll.
    destruct (animate dE (earthScene a)) as [sE|] eqn:HE; [|done]. simpl.
    destruct (animate dM (moonScene a)) as [sM|] eqn:HM; [|done]. simpl.
    destruct (animate dJ (jupiterScene a)) as [sJ|] eqn:HJ; [|done]. simpl.
    intros [= <-].
    exists (Some (AnimationFrame dE)), (Some (AnimationFrame dM)),
           (Some (AnimationFrame dJ)).
    split_and!; first [done | by eapply run_cons; [|apply run_nil]].
Qed.

Lemma run_frames_length (s s' : GravityScene) (es : list Event) :
  run s es s' →
  length (frames (renderer s')) = length (frames (renderer s)) + ticks es.
Proof.
  induction 1 as [s|s e s1 es s2 Hd _ IH]; [simpl; lia|].
  destruct (dispatch_frames e s s1 Hd) as (fs & Hf & Hl).
  rewrite IH, Hf, length_app, Hl, (ticks_cons e es). lia.
Qed.

Lemma run_gravityValue (s s' : GravityScene) (es : list Event) :
  run s es s' →
  has_gravityInput (container s') = has_gravityInput (container s) ∧
  (has_gravityInput (container s) = false → gravityValue s' = gravityValue s).
Proof.
  induction 1 as [s|s e s1 es s2 Hd _ [IH1 IH2]]; [done|].
  destruct (dispatch_gravityValue e s s1 Hd) as [Hin Hg].
  split; [congruence|]. intros Hno. rewrite Hno in Hin, Hg.
  rewrite IH2 by done. done.
Qed.

Lemma app_reachable_scenes (a : App) :
  app_reachable a →
  reachable (earthScene a) ∧ reachable (moonScene a)
  ∧ reachable (jupiterScene a) ∧
  length (frames (renderer (earthScene a)))
  = length (frames (renderer (moonScene a))) ∧
  length (frames (renderer (moonScene a)))
  = length (frames (renderer (jupiterScene a))).
Proof.
  induction 1 as [cE cM cJ|a ev a' _ (HE & HM & HJ & Hf1 & Hf2) Hd].
  { repeat split; apply reachable_new. }
  destruct (app_dispatch_scenes ev a a' Hd)
    as (oE & oM & oJ & HrE & HrM & HrJ & Ht1 & Ht2).
  split; [exact (reachable_run _ _ _ HE HrE)|].
  split; [exact (reachable_run _ _ _ HM HrM)|].
  split; [exact (reachable_run _ _ _ HJ HrJ)|].
  rewrite (run_frames_length _ _ _ HrE), (run_frames_length _ _ _ HrM),
          (run_frames_length _ _ _ HrJ).
  lia.
Qed.

(** X11. The page keeps its three scenes in step.  In every state of the
    page each of the three scenes is a reachable scene controller (so all
    that holds of one holds of each), the three renderers have drawn the same
    number of frames, and no page event throws: [animateAll] animates all
    three scenes, every time. *)
Theorem page_in_step (a : App) :
  app_reachable a →
  (reachable (earthScene a) ∧ reachable (moonScene a)
   ∧ reachable (jupiterScene a)) ∧
  (length (frames (renderer (earthScene a)))
   = length (frames (renderer (moonScene a))) ∧
   length (frames (renderer (moonScene a)))
   = length (frames (renderer (jupiterScene a)))) ∧
  (∀ ev, ∃ a', app_dispatch ev a = Normal a') ∧
  (∀ dE dM dJ, ∃ e m j,
     animate dE (earthScene a) = Normal e ∧
     animate dM (moonScene a) = Normal m ∧
     animate dJ (jupiterScene a) = Normal j ∧
     animateAll dE dM dJ a = Normal (mkApp e m j)).
Proof.
  intros (HE & HM & HJ & Hf1 & Hf2)%app_reachable_scenes.
  split; [done|]. split; [done|].
  assert (Htotal : ∀ p e, ∃ s, dispatch e (scene_of p a) = Normal s).
  { intros p e. apply dispatch_total, reachable_wf. by destruct p. }
  assert (Hall : ∀ dE dM dJ, ∃ e m j,
     animate dE (earthScene a) = Normal e ∧
     animate dM (moonScene a) = Normal m ∧
     animate dJ (jupiterScene a) = Normal j ∧
     animateAll dE dM dJ a = Normal (mkApp e m j)).
  { intros dE dM dJ.
    destruct (Htotal Earth (AnimationFrame dE)) as [e He].
    destruct (Htotal Moon (AnimationFrame dM)) as [m Hm].
    destruct (Htotal Jupiter (AnimationFrame dJ)) as [j Hj].
    simpl in He, Hm, Hj. exists e, m, j. unfold animateAll.
    by rewrite He, Hm, Hj. }
  split; [|done].
  intros [p|p value|e m j|dE dM dJ]; unfold app_dispatch.
  - destruct (Htotal p Click) as [s ->]. by eexists.
  - destruct (Htotal p (Change value)) as [s ->]. by eexists.
  - by eexists.
  - destruct (Hall dE dM dJ) as (? & ? & ? & _ & _ & _ & ->). by eexists.
Qed.

Lemma app_reachable_gravityValue (a : App) :
  app_reachable a →
  (has_gravityInput (container (earthScene a)) = false →
   gravityValue (earthScene a) = 9.8%float) ∧
  (has_gravityInput (container (moonScene a)) = false →
   gravityValue (moonScene a) = 1.6%float) ∧
  (has_gravityInput (container (jupiterScene a)) = false →
   gravityValue (jupiterScene a) = 24.8%float).
Proof.
  induction 1 as [cE cM cJ|a ev a' _ (HE & HM & HJ) Hd]; [done|].
  destruct (app_dispatch_scenes ev a a' Hd)
    as (oE & oM & oJ & HrE & HrM & HrJ & _).
  destruct (run_gravityValue _ _ _ HrE) as [HinE HgE].
  destruct (run_gravityValue _ _ _ HrM) as [HinM HgM].
  destruct (run_gravityValue _ _ _ HrJ) as [HinJ HgJ].
  repeat split; intros Hno.
  - rewrite HinE in Hno. rewrite HgE by done. by apply HE.
  - rewrite HinM in Hno. rewrite HgM by done. by apply HM.
  - rewrite HinJ in Hno. rewrite HgJ by done. by apply HJ.
Qed.

(** X12. A scene whose container has no gravity input keeps the gravity of
    its planet whatever happens on the page: 9.8 for the earth scene, 1.6
    for the moon scene, 24.8 for the jupiter scene, each as the downward
    vector of its world. *)
Theorem planets_keep_gravity (a : App) :
  app_reachable a →
  (has_gravityInput (container (earthScene a)) = false →
   gravity (world (earthScene a)) = mkVec3 0 (- 9.8) 0) ∧
  (has_gravityInput (container (moonScene a)) = false →
   gravity (world (moonScene a)) = mkVec3 0 (- 1.6) 0) ∧
  (has_gravityInput (container (jupiterScene a)) = false →
   gravity (world (jupiterScene a)) = mkVec3 0 (- 24.8) 0).
Proof.
  intros Ha.
  destruct (app_reachable_gravityValue a Ha) as (HE & HM & HJ).
  destruct (app_reachable_scenes a Ha) as (HrE & HrM & HrJ & _).
  repeat split; intros Hno.
  - by rewrite (wf_gravity _ (reachable_wf _ HrE)), HE.
  - by rewrite (wf_gravity _ (reachable_wf _ HrM)), HM.
  - by rewrite (wf_gravity _ (reachable_wf _ HrJ)), HJ.
Qed.

Lemma app_reachable_play (cE cM cJ : Container) (evs : list AppEvent)
    (a : App) :
  app_play evs (main cE cM cJ) = Normal a → app_reachable a.
Proof.
  assert (Hgen : ∀ a0, app_reachable a0 →
            app_play evs a0 = Normal a → app_reachable a).
  { induction evs as [|ev evs IH]; simpl; intros a0 Ha0 Hplay.
    - by injection Hplay as <-.
    - destruct (app_dispatch ev a0) as [a1|] eqn:Hd; [|done].
      apply (IH a1); [|done]. by eapply app_reachable_event. }
  apply Hgen, app_reachable_main.
Qed.

(** ** The configuration of the world, and the one physics step of a tick *)

Lemma world_config_turn (i : nat) (ball : Ball) (s : GravityScene) :
  let s' := if resting s ball then removed_at i ball s else synced_at ball s in
  broadphase (world s') = broadphase (world s) ∧
  solver_iterations (world s') = solver_iterations (world s) ∧
  contactmaterials (world s') = contactmaterials (world s).
Proof. simpl. by destruct (resting s ball). Qed.

Lemma world_config_animate_loop (n : nat) (s s' : GravityScene) :
  animate_loop n s = Normal s' →
  broadphase (world s') = broadphase (world s) ∧
  solver_iterations (world s') = solver_iterations (world s) ∧
  contactmaterials (world s') = contactmaterials (world s).
Proof.
  revert s. induction n as [|i IH]; simpl; intros s Hloop.
  - by injection Hloop as <-.
  - destruct (balls s !! i) as [ball|] eqn:Hi.
    + rewrite (animate_body_eq i s ball Hi) in Hloop. simpl in Hloop.
      destruct (IH _ Hloop) as (-> & -> & ->).
      apply (world_config_turn i ball s).
    + unfold animate_body in Hloop. by rewrite Hi in Hloop.
Qed.

Lemma world_config_dispatch (e : Event) (s s' : GravityScene) :
  dispatch e s = Normal s' →
  broadphase (world s') = broadphase (world s) ∧
  solver_iterations (world s') = solver_iterations (world s) ∧
  contactmaterials (world s') = contactmaterials (world s) ∧
  groundMaterial s' = groundMaterial s ∧ ballMaterial s' = ballMaterial s.
Proof.
  destruct e as [|value|w h|delta]; simpl.
  - intros [= <-]. unfold addBall, new_object, new_body, world_addBody. simpl.
    by destruct (decide _).
  - unfold gravityInput_change.
    destruct (has_gravityInput _); [destruct (negb _)|]; by intros [= <-].
  - by intros [= <-].
  - intros (s1 & Hloop & ->)%animate_inv. simpl.
    destruct (world_config_animate_loop _ _ _ Hloop) as (-> & -> & ->).
    pose proof (loop_frame_animate_loop _ _ _ Hloop) as Hlf.
    by rewrite (lf_groundMaterial _ _ Hlf), (lf_ballMaterial _ _ Hlf).
Qed.

(** X13. No callback touches the configuration the constructor gives the
    physics: between callbacks the world uses the naive broadphase and 10
    solver iterations, its contact materials are the ball-ground pair
    (friction 0.4, restitution 0.8) and the ball-ball pair (friction 0.3,
    restitution 0.9), in this order, over the two materials named
    [groundMaterial] and [ballMaterial], and the ball radius is 1. *)
Theorem world_config_constant (s : GravityScene) :
  reachable s →
  broadphase (world s) = NaiveBroadphase ∧
  solver_iterations (world s) = 10%Z ∧
  contactmaterials (world s)
  = [mkContactMaterial (ballMaterial s) (groundMaterial s) 0.4 0.8;
     mkContactMaterial (ballMaterial s) (ballMaterial s) 0.3 0.9] ∧
  groundMaterial s = mkMaterial "groundMaterial" ∧
  ballMaterial s = mkMaterial "ballMaterial" ∧
  ballRadius s = 1%float.
Proof.
  intros Hreach. split_and!; [| | | | |by apply wf_ballRadius, reachable_wf].
  all: induction Hreach as [c g|s e s' _ IH Hd]; [done|].
  all: destruct (world_config_dispatch e s s' Hd) as (Hb & Hi & Hc & Hg & Hm).
  all: congruence.
Qed.

(** X14. A tick steps the physics once, with the fixed step 1/60 and the
    elapsed time of the scene's clock, on the world as it is when the tick
    starts, and nothing in the tick writes a body afterwards: the private
    state of the integrator and every body of the world are, when the tick
    ends, what that one step made of them. *)
Theorem animate_steps_once (s : GravityScene) (delta : float) :
  reachable s →
  ∃ s',
    animate delta s = Normal s' ∧
    internal (world s')
    = step_internal (world s) (1 / 60) delta
        ((λ id, bodyStore s !!! id) <$> bodies (world s)) ∧
    ∀ k id, bodies (world s) !! k = Some id →
      bodyStore s' !! id
      = Some (step_body (world s) (1 / 60) delta
                ((λ id, bodyStore s !!! id) <$> bodies (world s)) k
                (bodyStore s !!! id)).
Proof.
  intros Hwf%reachable_wf.
  destruct (animate_spec delta s Hwf) as (s1 & _ & Heq & _ & Hlf & _).
  exists (render s1). split; [done|]. simpl.
  rewrite (lf_internal _ _ Hlf), (lf_bodyStore _ _ Hlf). split; [done|].
  intros k id Hk.
  by apply world_step_lookup; [apply (wf_bodies_NoDup s Hwf)|].
Qed.

(** ** Playing events *)

Lemma play_total (es : list Event) (s : GravityScene) :
  wf s → ∃ s', play es s = Normal s'.
Proof.
  revert s. induction es as [|e es IH]; simpl; intros s Hwf; [by eexists|].
  destruct (dispatch_total e s Hwf) as [s1 Hd]. rewrite Hd. simpl.
  apply IH. by eapply wf_dispatch.
Qed.

Lemma play_app (es es' : list Event) (s : GravityScene) :
  play (es ++ es') s = s' ← play es s; play es' s'.
Proof.
  revert s. induction es as [|e es IH]; simpl; intros s; [done|].
  destruct (dispatch e s) as [s1|]; simpl; [apply IH|done].
Qed.

(** The state a list of events leads to from a new scene controller is
    reachable, and the list is a run to it. *)
Lemma reachable_played (c : Container) (g : float) (es : list Event) :
  reachable (match play es (constructor c g) with
             | Normal s => s
             | Throw _ => constructor c g
             end).
Proof.
  destruct (play es (constructor c g)) as [s|] eqn:Hplay.
  - by eapply reachable_play.
  - apply reachable_new.
Qed.

Lemma run_played (c : Container) (g : float) (es es' : list Event) :
  run (match play es (constructor c g) with
       | Normal s => s
       | Throw _ => constructor c g
       end)
      es'
      (match play (es ++ es') (constructor c g) with
       | Normal s => s
       | Throw _ => constructor c g
       end).
Proof.
  rewrite play_app.
  destruct (play_total es (constructor c g) (wf_constructor c g)) as [s Hs].
  rewrite Hs. simpl.
  assert (Hwf : wf s).
  { eapply wf_run; [apply (wf_constructor c g)|]. by apply run_play. }
  destruct (play_total es' s Hwf) as [s' Hs']. rewrite Hs'.
  by apply run_play.
Qed.

Lemma app_play_total (evs : list AppEvent) (a : App) :
  app_reachable a → ∃ a', app_play evs a = Normal a' ∧ app_reachable a'.
Proof.
  revert a. induction evs as [|ev evs IH]; simpl; intros a Ha; [by eexists|].
  destruct (app_reachable_scenes a Ha) as (HE & HM & HJ & _).
  assert (Htotal : ∀ p e, ∃ s, dispatch e (scene_of p a) = Normal s).
  { intros p e. apply dispatch_total, reachable_wf. by destruct p. }
  assert (Hd : ∃ a1, app_dispatch ev a = Normal a1).
  { destruct ev as [p|p value|e m j|dE dM dJ]; unfold app_dispatch.
    - destruct (Htotal p Click) as [s ->]. by eexists.
    - destruct (Htotal p (Change value)) as [s ->]. by eexists.
    - by eexists.
    - unfold animateAll.
      destruct (Htotal Earth (AnimationFrame dE)) as [e He].
      destruct (Htotal Moon (AnimationFrame dM)) as [m Hm].
      destruct (Htotal Jupiter (AnimationFrame dJ)) as [j Hj].
      simpl in He, Hm, Hj. rewrite He, Hm, Hj. by eexists. }
  destruct Hd as [a1 Hd]. rewrite Hd. simpl.
  apply IH. by eapply app_reachable_event.
Qed.

Lemma app_reachable_played (cE cM cJ : Container) (evs : list AppEvent) :
  app_reachable (match app_play evs (main cE cM cJ) with
                 | Normal a => a
                 | Throw _ => main cE cM cJ
                 end).
Proof.
  destruct (app_play_total evs (main cE cM cJ) (app_reachable_main cE cM cJ))
    as (a & -> & Ha).
  done.
Qed.

End Properties.

(** * The model on concrete inputs *)

Section Examples.
Import Sample.

(** The constructor: light and ground in the scene, the ground in the world,
    gravity pointing down, aspect 800 / 600. *)
Example start_scene : scene start = [0; 1].
Proof. reflexivity. Qed.

Example start_bodies : bodies (world start) = [0].
Proof. reflexivity. Qed.

Example start_gravity : gravity (world start) = mkVec3 0 (-9.8) 0.
Proof. reflexivity. Qed.

Example start_aspect : aspect (camera start) = (800 / 600)%float.
Proof. reflexivity. Qed.

(** Two clicks: two balls, with the handles 2, 3 (nodes) and 1, 2 (bodies). *)
Example two_clicks :
  balls (after [Click; Click]) = [mkBall 2 1 false; mkBall 3 2 false]
  ∧ scene (after [Click; Click]) = [0; 1; 2; 3]
  ∧ bodies (world (after [Click; Click])) = [0; 1; 2].
Proof. vm_compute. done. Qed.

(** A ball dropped and followed for two frames of half a second: in the air
    after the first, removed by the second; a ball dropped in between is
    still falling. *)
Example falling_ball :
  balls falling = [mkBall 2 1 false]
  ∧ body_position (bodyStore falling !!! 1) = mkVec3 0 5.55 0
  ∧ position (objects falling !!! 2) = mkVec3 0 5.55 0.
Proof. vm_compute. done. Qed.

Example landed_ball :
  let s := after [Click; AnimationFrame 0.5; Click; AnimationFrame 0.5] in
  balls s = [mkBall 3 2 false] ∧ scene s = [0; 1; 3]
  ∧ bodies (world s) = [0; 2] ∧ length (frames (renderer s)) = 2.
Proof. vm_compute. done. Qed.

(** The gravity input. *)
Example change_12 :
  gravity (world (gravityInput_change "12" start)) = mkVec3 0 (-12) 0.
Proof. reflexivity. Qed.

Example change_junk :
  gravityInput_change "fast" start = start.
Proof. reflexivity. Qed.

(** Out of range, a turn of the loop throws. *)
Example animate_body_out_of_range :
  animate_body 1 (after [Click]) = Throw TypeError.
Proof. reflexivity. Qed.

(** The loop on a collection no run produces: two entries for the same
    ball on the ground, the first one flagged.  The unflagged entry is
    removed, the flagged one is visited and kept. *)
Example loop_on_flagged_ball :
  let s := after [Click] in
  let s := set_bodyStore
             (alter (body_set_position (mkVec3 0 2 0)) 1 (bodyStore s)) s in
  let s := set_balls [mkBall 2 1 true; mkBall 2 1 false] s in
  match animate_loop_trace 2 s with
  | Normal (visited, s') =>
    visited = [mkBall 2 1 false; mkBall 2 1 true]
    ∧ balls s' = [mkBall 2 1 true]
  | Throw _ => False
  end.
Proof. vm_compute. done. Qed.

(** The loop on two balls after a physics step: the first has reached the
    ground and is removed, the second is in the air and is kept; the nodes
    of both show their bodies' positions. *)
Example loop_syncs_nodes :
  let s := world_step (1 / 60) 0.5 (after [Click; AnimationFrame 0.5; Click]) in
  match animate_loop 2 s with
  | Normal s' =>
    balls s' = [mkBall 3 2 false]
    ∧ position (objects s' !!! 2) = body_position (bodyStore s !!! 1)
    ∧ position (objects s' !!! 2) = mkVec3 0 2 0
    ∧ position (objects s' !!! 3) = body_position (bodyStore s !!! 2)
    ∧ position (objects s' !!! 3) = mkVec3 0 5.55 0
  | Throw _ => False
  end.
Proof. vm_compute. done. Qed.

End Examples.

(** * The claims at concrete states of the sample platform *)

#[local] Existing Instance Sample.platform.

Lemma settled_ball_removed_witness :
  reachable Sample.falling ∧
  ∃ s',
    animate 0.5 Sample.falling = Normal s' ∧
    ∀ ball, ball ∈ balls Sample.falling →
      let b := bodyStore (world_step (1 / 60) 0.5 Sample.falling) !!! body ball in
      if (Vec3_length (velocity b) <? 0.1)%float
         && (vy (body_position b) <=? 2)%float
      then ((ball ∉ balls s') ∧ (mesh ball ∉ scene s')
            ∧ (body ball ∉ bodies (world s')))
      else (ball ∈ balls s' ∧ mesh ball ∈ scene s'
            ∧ body ball ∈ bodies (world s')).
Proof.
  assert (Hreach : reachable Sample.falling).
  { apply (reachable_play (mkContainer 800 600 true) 9.8
             [Click; AnimationFrame 0.5]).
    vm_compute. reflexivity. }
  split; [exact Hreach|].
  apply (settled_ball_removed Sample.falling 0.5). exact Hreach.
Defined.

Lemma handles_paired_witness :
  let s := Sample.after [Click; Click] in
  reachable s ∧
  paired s ∧
  (∀ e, ∃ s', dispatch e s = Normal s' ∧ paired s') ∧
  ∀ ball es s1 es' s2,
    ball ∈ balls s → run s es s1 → ball ∉ balls s1 → run s1 es' s2 →
    (∀ ball', ball' ∈ balls s2 →
       mesh ball' ≠ mesh ball ∧ body ball' ≠ body ball) ∧
    (mesh ball ∉ scene s2) ∧ (body ball ∉ bodies (world s2)).
Proof.
  assert (Hreach : reachable (Sample.after [Click; Click])).
  { apply (reachable_play (mkContainer 800 600 true) 9.8 [Click; Click]).
    vm_compute. reflexivity. }
  split; [exact Hreach|].
  apply (handles_paired (Sample.after [Click; Click])). exact Hreach.
Defined.

Lemma gravity_change_numeric_witness :
  let s := Sample.start in
  let s' := gravityInput_change "12" s in
  parseFloat "12" = 12%float ∧ is_nan 12 = false ∧
  gravityValue s' = 12%float ∧
  gravity (world s') = mkVec3 0 (- 12) 0 ∧
  (- vy (gravity (world s')))%float = 12%float ∧
  world s' = world_set_gravity (mkVec3 0 (- 12) 0) (world s) ∧
  s' = set_world (world s') (set_gravityValue 12 s) ∧
  ∀ dt delta k id,
    NoDup (bodies (world s)) → bodies (world s) !! k = Some id →
    bodyStore (world_step dt delta s') !! id
    = Some (step_body (world_set_gravity (mkVec3 0 (- 12) 0) (world s)) dt delta
              ((λ id, bodyStore s !!! id) <$> bodies (world s)) k
              (bodyStore s !!! id)).
Proof.
  split; [reflexivity|]. split; [reflexivity|].
  apply (gravity_change_numeric "12" 12 Sample.start); reflexivity.
Defined.

Lemma gravity_change_not_numeric_witness :
  let s := Sample.start in
  is_nan (parseFloat "fast") = true ∧
  gravityInput_change "fast" s = s ∧
  gravity (world (gravityInput_change "fast" s)) = gravity (world s) ∧
  gravityValue (gravityInput_change "fast" s) = gravityValue s ∧
  dispatch (Change "fast") s = Normal s.
Proof.
  split; [reflexivity|].
  apply (gravity_change_not_numeric "fast" Sample.start). reflexivity.
Defined.

Lemma addBall_spawns_witness :
  let s := Sample.after [Click; Click] in
  let s' := addBall s in
  reachable s ∧
  dispatch Click s = Normal s' ∧
  balls s' = balls s ++ [mkBall 4 3 false] ∧
  length (balls s') = S (length (balls s)) ∧
  objects s !! 4 = None ∧ (4 ∉ scene s) ∧
  scene s' = scene s ++ [4] ∧
  objects s' !! 4
  = Some (mkObject3D (Mesh (SphereGeometry 1 32 32) 0xff4444)
                     zero3 identityQ true false) ∧
  bodyStore s !! 3 = None ∧ (3 ∉ bodies (world s)) ∧
  bodies (world s') = bodies (world s) ++ [3] ∧
  bodyStore s' !! 3
  = Some (mkBody 5 (Sphere 1) (ballMaterial s) (mkVec3 0 8 0) identityQ
                 zero3 zero3 0.31) ∧
  (∀ id, id ≠ 4 → objects s' !! id = objects s !! id) ∧
  (∀ id, id ≠ 3 → bodyStore s' !! id = bodyStore s !! id).
Proof.
  assert (Hreach : reachable (Sample.after [Click; Click])).
  { apply (reachable_play (mkContainer 800 600 true) 9.8 [Click; Click]).
    vm_compute. reflexivity. }
  split; [exact Hreach|].
  apply (addBall_spawns (Sample.after [Click; Click])). exact Hreach.
Defined.

Lemma animate_syncs_witness :
  reachable Sample.falling ∧
  ∃ s',
    animate 0.5 Sample.falling = Normal s' ∧
    (∀ ball, ball ∈ balls s' → synced s' ball) ∧
    (∀ ball, ball ∈ balls Sample.falling → synced s' ball) ∧
    bodyStore s' = bodyStore (world_step (1 / 60) 0.5 Sample.falling) ∧
    ∃ frame,
      frames (renderer s') = frames (renderer Sample.falling) ++ [frame] ∧
      drawn frame = (λ id, (id, objects s' !!! id)) <$> scene s' ∧
      ∀ ball, ball ∈ balls s' →
        ∃ o, (mesh ball, o) ∈ drawn frame ∧
             position o = body_position (bodyStore s' !!! body ball) ∧
             quaternion o = body_quaternion (bodyStore s' !!! body ball).
Proof.
  assert (Hreach : reachable Sample.falling).
  { apply (reachable_play (mkContainer 800 600 true) 9.8
             [Click; AnimationFrame 0.5]).
    vm_compute. reflexivity. }
  split; [exact Hreach|].
  apply (animate_syncs Sample.falling 0.5). exact Hreach.
Defined.


Lemma gravity_points_down_witness :
  let s := Sample.after [Change "12"; Click; AnimationFrame 0.5] in
  reachable s ∧
  gravity (world s) = mkVec3 0 (- gravityValue s) 0 ∧
  vx (gravity (world s)) = 0%float ∧
  vz (gravity (world s)) = 0%float.
Proof.
  assert (Hreach :
    reachable (Sample.after [Change "12"; Click; AnimationFrame 0.5])).
  { apply (reachable_play (mkContainer 800 600 true) 9.8
             [Change "12"; Click; AnimationFrame 0.5]).
    vm_compute. reflexivity. }
  split; [exact Hreach|].
  apply (gravity_points_down
           (Sample.after [Change "12"; Click; AnimationFrame 0.5])).
  exact Hreach.
Defined.

(** * The further properties at concrete states of the sample platform *)

(** Every state [Sample.after es] is reachable, and [es'] is a run from it
    to [Sample.after (es ++ es')]; every state [Sample.page_after evs] of
    the sample page is reachable. *)
Lemma sample_reachable (es : list Event) : reachable (Sample.after es).
Proof. apply reachable_played. Qed.

Lemma sample_run (es es' : list Event) :
  run (Sample.after es) es' (Sample.after (es ++ es')).
Proof. apply (run_played _ _ es es'). Qed.

Lemma sample_page_reachable (evs : list AppEvent) :
  app_reachable (Sample.page_after evs).
Proof. apply app_reachable_played. Qed.

Lemma run_frames_witness :
  let es := [Click; AnimationFrame 0.5; Change "12"; AnimationFrame 0.5] in
  run Sample.start es (Sample.after es) ∧
  ∃ fs, frames (renderer (Sample.after es))
        = frames (renderer Sample.start) ++ fs
        ∧ length fs = ticks es.
Proof.
  assert (Hrun : run Sample.start
            [Click; AnimationFrame 0.5; Change "12"; AnimationFrame 0.5]
            (Sample.after
               [Click; AnimationFrame 0.5; Change "12"; AnimationFrame 0.5])).
  { exact (sample_run []
             [Click; AnimationFrame 0.5; Change "12"; AnimationFrame 0.5]). }
  split; [exact Hrun|].
  apply (run_frames Sample.start _ _ Hrun).
Defined.

Lemma run_balls_witness :
  let es := [Click; Resize 640 480; Click; Change "12"] in
  run Sample.start es (Sample.after es) ∧
  length (balls (Sample.after es))
  ≤ length (balls Sample.start) + clicks es ∧
  (ticks es = 0 →
   length (balls (Sample.after es))
   = length (balls Sample.start) + clicks es).
Proof.
  assert (Hrun : run Sample.start [Click; Resize 640 480; Click; Change "12"]
            (Sample.after [Click; Resize 640 480; Click; Change "12"])).
  { exact (sample_run []
             [Click; Resize 640 480; Click; Change "12"]). }
  split; [exact Hrun|].
  apply (run_balls Sample.start _ _ Hrun).
Defined.

Lemma run_gravity_witness :
  let es := [Change "12"; Click; Change "fast"; AnimationFrame 0.5] in
  reachable Sample.start ∧
  run Sample.start es (Sample.after es) ∧
  gravityValue (Sample.after es)
  = (if has_gravityInput (container Sample.start)
     then gravity_after (gravityValue Sample.start) es
     else gravityValue Sample.start) ∧
  gravity (world (Sample.after es))
  = mkVec3 0 (- gravityValue (Sample.after es)) 0.
Proof.
  assert (Hrun : run Sample.start
            [Change "12"; Click; Change "fast"; AnimationFrame 0.5]
            (Sample.after
               [Change "12"; Click; Change "fast"; AnimationFrame 0.5])).
  { exact (sample_run []
             [Change "12"; Click; Change "fast"; AnimationFrame 0.5]). }
  split; [apply reachable_new|]. split; [exact Hrun|].
  apply (run_gravity Sample.start _ _ (reachable_new _ _) Hrun).
Defined.

Lemma view_fits_container_witness :
  let s := Sample.after [Click; Resize 640 480; AnimationFrame 0.5] in
  reachable s ∧
  fits_container s ∧
  onWindowResize s = s ∧
  dispatch (Resize (clientWidth (container s)) (clientHeight (container s))) s
  = Normal s ∧
  ∀ c g,
    constructor c g = onWindowResize (constructor_fields c g) ∧
    onWindowResize (constructor_fields c g) = constructor_fields c g ∧
    fits_container (constructor_fields c g).
Proof.
  assert (Hreach :
    reachable (Sample.after [Click; Resize 640 480; AnimationFrame 0.5])).
  { exact (sample_reachable [Click; Resize 640 480; AnimationFrame 0.5]). }
  split; [exact Hreach|].
  apply (view_fits_container _ Hreach).
Defined.

Lemma animate_keeps_order_witness :
  let s := Sample.after [Click; AnimationFrame 0.5; Click] in
  reachable s ∧
  ∃ s',
    animate 0.5 s = Normal s' ∧
    balls s' = filter (λ ball,
                 resting (world_step (1 / 60) 0.5 s) ball = false) (balls s) ∧
    scene s' = 0 :: groundMesh s :: (mesh <$> balls s') ∧
    bodies (world s') = groundBody s :: (body <$> balls s') ∧
    ((∀ ball, ball ∈ balls s →
        resting (world_step (1 / 60) 0.5 s) ball = false) →
     balls s' = balls s ∧ scene s' = scene s ∧
     bodies (world s') = bodies (world s)).
Proof.
  assert (Hreach :
    reachable (Sample.after [Click; AnimationFrame 0.5; Click])).
  { exact (sample_reachable [Click; AnimationFrame 0.5; Click]). }
  split; [exact Hreach|].
  apply (animate_keeps_order _ 0.5 Hreach).
Defined.

Lemma animate_all_settled_witness :
  reachable Sample.falling ∧
  (∀ ball, ball ∈ balls Sample.falling →
     let b := bodyStore (world_step (1 / 60) 0.5 Sample.falling) !!! body ball in
     (Vec3_length (velocity b) <? 0.1)%float
     && (vy (body_position b) <=? 2)%float = true) ∧
  ∃ s',
    animate 0.5 Sample.falling = Normal s' ∧
    balls s' = [] ∧ scene s' = [0; 1] ∧ bodies (world s') = [0].
Proof.
  assert (Hreach : reachable Sample.falling).
  { exact (sample_reachable [Click; AnimationFrame 0.5]). }
  assert (Hall : ∀ ball, ball ∈ balls Sample.falling →
     let b := bodyStore (world_step (1 / 60) 0.5 Sample.falling) !!! body ball in
     (Vec3_length (velocity b) <? 0.1)%float
     && (vy (body_position b) <=? 2)%float = true).
  { intros ball Hball.
    assert (Hb : balls Sample.falling = [mkBall 2 1 false])
      by (vm_compute; reflexivity).
    rewrite Hb in Hball. apply list_elem_of_singleton in Hball as ->.
    vm_compute. reflexivity. }
  split; [exact Hreach|]. split; [exact Hall|].
  apply (animate_all_settled Sample.falling 0.5 Hreach Hall).
Defined.

Lemma outsiders_untouched_witness :
  let s := Sample.after [Click; AnimationFrame 0.5; AnimationFrame 0.5] in
  let es := [Click; AnimationFrame 0.5; Click] in
  reachable s ∧ run s es (Sample.after
    [Click; AnimationFrame 0.5; AnimationFrame 0.5;
     Click; AnimationFrame 0.5; Click]) ∧
  (∀ id, id < object3DId s → id ∉ mesh <$> balls s →
     objects (Sample.after
       [Click; AnimationFrame 0.5; AnimationFrame 0.5;
        Click; AnimationFrame 0.5; Click]) !! id = objects s !! id
     ∧ id ∉ mesh <$> balls (Sample.after
       [Click; AnimationFrame 0.5; AnimationFrame 0.5;
        Click; AnimationFrame 0.5; Click])) ∧
  (∀ id, id < bodyId s → id ∉ bodies (world s) →
     bodyStore (Sample.after
       [Click; AnimationFrame 0.5; AnimationFrame 0.5;
        Click; AnimationFrame 0.5; Click]) !! id = bodyStore s !! id
     ∧ id ∉ bodies (world (Sample.after
       [Click; AnimationFrame 0.5; AnimationFrame 0.5;
        Click; AnimationFrame 0.5; Click]))).
Proof.
  assert (Hreach : reachable
    (Sample.after [Click; AnimationFrame 0.5; AnimationFrame 0.5])).
  { exact (sample_reachable [Click; AnimationFrame 0.5; AnimationFrame 0.5]). }
  assert (Hrun : run
    (Sample.after [Click; AnimationFrame 0.5; AnimationFrame 0.5])
    [Click; AnimationFrame 0.5; Click]
    (Sample.after [Click; AnimationFrame 0.5; AnimationFrame 0.5;
                   Click; AnimationFrame 0.5; Click])).
  { exact (sample_run [Click; AnimationFrame 0.5; AnimationFrame 0.5]
             [Click; AnimationFrame 0.5; Click]). }
  split; [exact Hreach|]. split; [exact Hrun|].
  apply (outsiders_untouched _ _ _ Hreach Hrun).
Defined.

Lemma fixtures_unchanged_witness :
  let s := Sample.after [Click; AnimationFrame 0.5; Click] in
  reachable s ∧
  objects s !! 0
  = Some (mkObject3D (DirectionalLight 0xffffff 1) (mkVec3 5 10 7)
                     identityQ false false) ∧
  objects s !! groundMesh s
  = Some (mkObject3D (Mesh (PlaneGeometry 20 20) 0x555555) (mkVec3 0 1 0)
                     (setFromEuler (- Math_PI / 2) 0 0) false true).
Proof.
  assert (Hreach :
    reachable (Sample.after [Click; AnimationFrame 0.5; Click])).
  { exact (sample_reachable [Click; AnimationFrame 0.5; Click]). }
  split; [exact Hreach|].
  apply (fixtures_unchanged _ Hreach).
Defined.

Lemma ball_meshes_keep_look_witness :
  let s := Sample.after [Click; AnimationFrame 0.5; Click] in
  reachable s ∧
  ∀ ball, ball ∈ balls s →
    ∃ o, objects s !! mesh ball = Some o ∧
         kind o = Mesh (SphereGeometry 1 32 32) 0xff4444 ∧
         castShadow o = true ∧ receiveShadow o = false.
Proof.
  assert (Hreach :
    reachable (Sample.after [Click; AnimationFrame 0.5; Click])).
  { exact (sample_reachable [Click; AnimationFrame 0.5; Click]). }
  split; [exact Hreach|].
  apply (ball_meshes_keep_look _ Hreach).
Defined.

Lemma page_in_step_witness :
  let a := Sample.page_after
             [CanvasClick Moon; PageFrame 0.5 0.5 0.5;
              WindowResize (640, 480)%float (640, 480)%float (320, 240)%float;
              PageFrame 0.5 0.5 0.5] in
  app_reachable a ∧
  (reachable (earthScene a) ∧ reachable (moonScene a)
   ∧ reachable (jupiterScene a)) ∧
  (length (frames (renderer (earthScene a)))
   = length (frames (renderer (moonScene a))) ∧
   length (frames (renderer (moonScene a)))
   = length (frames (renderer (jupiterScene a)))) ∧
  (∀ ev, ∃ a', app_dispatch ev a = Normal a') ∧
  (∀ dE dM dJ, ∃ e m j,
     animate dE (earthScene a) = Normal e ∧
     animate dM (moonScene a) = Normal m ∧
     animate dJ (jupiterScene a) = Normal j ∧
     animateAll dE dM dJ a = Normal (mkApp e m j)).
Proof.
  assert (Hreach : app_reachable (Sample.page_after
             [CanvasClick Moon; PageFrame 0.5 0.5 0.5;
              WindowResize (640, 480)%float (640, 480)%float (320, 240)%float;
              PageFrame 0.5 0.5 0.5])).
  { exact (sample_page_reachable
      [CanvasClick Moon; PageFrame 0.5 0.5 0.5; WindowResize (640, 480)%float (640, 480)%float (320, 240)%float; PageFrame 0.5 0.5 0.5]). }
  split; [exact Hreach|].
  apply (page_in_step _ Hreach).
Defined.

Lemma planets_keep_gravity_witness :
  let a := Sample.page_after
             [InputChange Earth "12"; InputChange Moon "3";
              CanvasClick Jupiter; PageFrame 0.5 0.5 0.5] in
  app_reachable a ∧
  (has_gravityInput (container (earthScene a)) = false →
   gravity (world (earthScene a)) = mkVec3 0 (- 9.8) 0) ∧
  (has_gravityInput (container (moonScene a)) = false →
   gravity (world (moonScene a)) = mkVec3 0 (- 1.6) 0) ∧
  (has_gravityInput (container (jupiterScene a)) = false →
   gravity (world (jupiterScene a)) = mkVec3 0 (- 24.8) 0).
Proof.
  assert (Hreach : app_reachable (Sample.page_after
             [InputChange Earth "12"; InputChange Moon "3";
              CanvasClick Jupiter; PageFrame 0.5 0.5 0.5])).
  { exact (sample_page_reachable
      [InputChange Earth "12"; InputChange Moon "3"; CanvasClick Jupiter; PageFrame 0.5 0.5 0.5]). }
  split; [exact Hreach|].
  apply (planets_keep_gravity _ Hreach).
Defined.

Lemma world_config_constant_witness :
  let s := Sample.after [Click; Change "12"; AnimationFrame 0.5] in
  reachable s ∧
  broadphase (world s) = NaiveBroadphase ∧
  solver_iterations (world s) = 10%Z ∧
  contactmaterials (world s)
  = [mkContactMaterial (ballMaterial s) (groundMaterial s) 0.4 0.8;
     mkContactMaterial (ballMaterial s) (ballMaterial s) 0.3 0.9] ∧
  groundMaterial s = mkMaterial "groundMaterial" ∧
  ballMaterial s = mkMaterial "ballMaterial" ∧
  ballRadius s = 1%float.
Proof.
  assert (Hreach :
    reachable (Sample.after [Click; Change "12"; AnimationFrame 0.5])).
  { exact (sample_reachable [Click; Change "12"; AnimationFrame 0.5]). }
  split; [exact Hreach|].
  apply (world_config_constant _ Hreach).
Defined.

Lemma animate_steps_once_witness :
  let s := Sample.falling in
  reachable s ∧
  ∃ s',
    animate 0.5 s = Normal s' ∧
    internal (world s')
    = step_internal (world s) (1 / 60) 0.5
        ((λ id, bodyStore s !!! id) <$> bodies (world s)) ∧
    ∀ k id, bodies (world s) !! k = Some id →
      bodyStore s' !! id
      = Some (step_body (world s) (1 / 60) 0.5
                ((λ id, bodyStore s !!! id) <$> bodies (world s)) k
                (bodyStore s !!! id)).
Proof.
  assert (Hreach : reachable Sample.falling).
  { exact (sample_reachable [Click; AnimationFrame 0.5]). }
  split; [exact Hreach|].
  apply (animate_steps_once _ 0.5 Hreach).
Defined.
